(** * dot: profile merge and symbolic-link reconciliation

    A shallow embedding of the Go packages [config], [utils] and [linker] of
    the dotfiles manager, and the properties of its profile merge
    ([GetProfiles]), path expansion ([ExpandPath]), the three reconciling
    commands [Check], [Clean] and [Link], and the listing command [List]
    with the parsing of the profile flag ([ParseProfiles]).

    Go maps are finite maps ([gmap]); the order in which a [range] statement
    enumerates a map, which Go leaves unspecified, is an explicit input
    ([MapRange]).  The operating system is an interface ([OS]): every
    theorem holds for each implementation of it, and a small simulated
    filesystem ([SimFS]) instantiates it for the concrete runs.

    A command is a function from the filesystem state to its value, the
    next state and the events of the run ([M]).  The events are the calls
    of package os that packages linker and utils make, each with the state
    it was issued in, and the lines printed.  Loading the configuration
    ([config.ParseConfig]), which every command does first, reads the state
    and is no event.  The lines of [List] are its value. *)

From stdpp Require Import gmap strings list fin_maps.

Open Scope string_scope.
Open Scope list_scope.

(** ** Errors and results *)

(** The [syscall.Errno] values the model distinguishes. *)
Inductive Errno := ENOENT | EEXIST | EACCES | EINVAL | ENOTDIR | ELOOP.

(** Go [error] values built by the program. *)
Inductive error :=
| PathError (code : Errno)
    (* an error returned by package os *)
| ProfileNotFound (profileName : string)
    (* fmt.Errorf("profile [%s] not found in .mappings", profileName) *)
| FoundIssues (n : nat)
    (* fmt.Errorf("found %d issue(s)", len(issues)) *)
| Wrapped (msg : string) (path : string) (err : error)
    (* fmt.Errorf("<msg> %s: %w", path, err) *)
| ConfigError (msg : string).
    (* the errors of the configuration loader *)

(** A Go pair [(value, error)] with [err == nil] or not. *)
Inductive Result (A : Type) :=
| Ok (a : A)
| Err (e : error).
Arguments Ok {A} a.
Arguments Err {A} e.

(** [os.IsNotExist(err)] on the error part of a call's result; it is false
    on [nil]. *)
Definition IsNotExist {A} (r : Result A) : bool :=
  match r with
  | Err (PathError ENOENT) => true
  | _ => false
  end.

(** ** Maps of package config *)

(** [type Profile map[string]string]: source path to target path. *)
Abbreviation Profile := (gmap string string).

(** [Config.Profiles]: profile name to profile. *)
Abbreviation Config := (gmap string Profile).

(** The enumeration a [for src, target := range m] statement makes of the
    map [m]. *)
Class MapRange := map_range : Profile → list (string * string).

(** An enumeration visits every entry of the map once. *)
Class MapRangeOk (R : MapRange) :=
  map_range_perm : ∀ m : Profile, map_range m ≡ₚ map_to_list m.

(** ** The operating system *)

(** [os.FileInfo], of which the program reads the mode bits only.
    [os.FileMode] is a 32-bit word. *)
Record FileInfo := { Mode : N }.

(** [os.ModeSymlink = 1 << (32 - 1 - 4)]. *)
Definition ModeSymlink : N := N.shiftl 1 27.

(** What the program needs of packages os, path/filepath and toml, over a
    type [FS] of filesystem states.  A query returns its result; a command
    returns the next state and its error, [None] being [nil]. *)
Class OS (FS : Type) := {
  sys_stat : FS → string → Result FileInfo;
      (* os.Stat: follows symbolic links *)
  sys_lstat : FS → string → Result FileInfo;
      (* os.Lstat: does not follow them *)
  sys_readlink : FS → string → Result string;
  sys_remove : FS → string → FS * option error;
  sys_remove_all : FS → string → FS * option error;
  sys_rename : FS → string → string → FS * option error;
  sys_mkdir_all : FS → string → FS * option error;
  sys_symlink : FS → string → string → FS * option error;
  sys_getenv : string → string;
  sys_user_home_dir : Result string;
  path_join : string → string → string;
  path_dir : string → string;
  toml_decode_file : FS → string → Result Config
}.

(** ** Package config *)

Module config.

(** The two maps [GetProfiles] builds: [result] and [targetToSource]. *)
Record MergeState := {
  result : Profile;
  targetToSource : gmap string string
}.

Definition empty_state : MergeState :=
  {| result := ∅; targetToSource := ∅ |}.

(** Body of the loop over the [general] profile (lines 58-61). *)
Definition seed_entry (st : MergeState) (e : string * string) : MergeState :=
  let '(src, target) := e in
  {| result := <[src := target]> (result st);
     targetToSource := <[target := src]> (targetToSource st) |}.

(** Body of the loop over a named profile (lines 75-83). *)
Definition apply_entry (st : MergeState) (e : string * string) : MergeState :=
  let '(src, target) := e in
  let result' :=
    match targetToSource st !! target with
    | Some oldSrc => delete oldSrc (result st)
    | None => result st
    end in
  {| result := <[src := target]> result';
     targetToSource := <[target := src]> (targetToSource st) |}.

(** The loop over the requested names (lines 65-84). *)
Fixpoint apply_profiles `{MapRange} (c : Config) (profileNames : list string)
    (st : MergeState) : Result MergeState :=
  match profileNames with
  | [] => Ok st
  | profileName :: rest =>
      if decide (profileName = "general") then apply_profiles c rest st
      else
        match c !! profileName with
        | None => Err (ProfileNotFound profileName)
        | Some profile =>
            apply_profiles c rest (foldl apply_entry st (map_range profile))
        end
  end.

(** The state after the [general] profile has been applied (lines 53-62). *)
Definition seeded `{MapRange} (c : Config) : MergeState :=
  match c !! "general" with
  | Some general => foldl seed_entry empty_state (map_range general)
  | None => empty_state
  end.

Definition GetProfiles `{MapRange} (c : Config) (profileNames : list string)
    : Result Profile :=
  let profileNames :=
    if decide (length profileNames = 0) then ["general"] else profileNames in
  match apply_profiles c profileNames (seeded c) with
  | Ok st => Ok (result st)
  | Err e => Err e
  end.

(** [ParseConfig]: the .mappings file of the dotfiles directory, which must
    exist, parse, and hold a [general] profile.  It only reads the
    filesystem. *)
Definition ParseConfig {FS} `{!OS FS} (fs : FS) (dotfilesDir : string)
    : Result Config :=
  let mappingsPath := path_join dotfilesDir ".mappings" in
  if IsNotExist (sys_stat fs mappingsPath)
  then Err (ConfigError ".mappings file not found")
  else
    match toml_decode_file fs mappingsPath with
    | Err err => Err (Wrapped "failed to parse .mappings file" mappingsPath err)
    | Ok profiles =>
        match profiles !! "general" with
        | None =>
            Err (ConfigError
                   "[general] profile is required but not found in .mappings")
        | Some _ => Ok profiles
        end
    end.

End config.

(** ** Commands and their events *)

(** One call of package os made by packages linker and utils. *)
Inductive Call :=
| CStat (name : string)
| CLstat (name : string)
| CReadlink (name : string)
| CRemove (name : string)
| CRemoveAll (path : string)
| CRename (oldpath newpath : string)
| CMkdirAll (path : string)
| CSymlink (oldname newname : string).

(** The calls that can change the filesystem. *)
Definition mutating (c : Call) : bool :=
  match c with
  | CStat _ | CLstat _ | CReadlink _ => false
  | CRemove _ | CRemoveAll _ | CRename _ _ | CMkdirAll _ | CSymlink _ _ => true
  end.

(** The lines the commands print, one constructor per format string. *)
Inductive Msg :=
| MissingLink (targetPath : string)
    (* "Missing link: %s" *)
| ErrorChecking (targetPath : string) (err : error)
    (* "Error checking %s: %v" *)
| NotASymlink (targetPath : string)
    (* "Not a symlink: %s" *)
| ErrorReadingLink (targetPath : string) (err : error)
    (* "Error reading link %s: %v" *)
| IncorrectLink (targetPath linkTarget sourcePath : string)
    (* "Incorrect link: %s -> %s (expected: %s)" *)
| AllLinksCorrect
    (* "All links are correct" *)
| SkippedNotFound (targetPath : string)
    (* "Skipped (not found): %s" *)
| SkippedNotASymlink (targetPath : string)
    (* "Skipped (not a symlink): %s" *)
| ErrorRemoving (targetPath : string) (err : error)
    (* "Error removing %s: %v" *)
| Removed (targetPath : string)
    (* "Removed: %s" *)
| WarningSourceMissing (sourcePath : string)
    (* "Warning: Source file does not exist: %s" *)
| ErrorReadingExistingLink (targetPath : string) (err : error)
    (* "Error reading existing link %s: %v" *)
| SkippedAlreadyCorrect (targetPath sourcePath : string)
    (* "Skipped (already correct): %s -> %s" *)
| ErrorRemovingExistingLink (targetPath : string) (err : error)
    (* "Error removing existing link %s: %v" *)
| Overriding (targetPath linkTarget : string)
    (* "Overriding: %s (was pointing to %s)" *)
| ErrorBackingUp (targetPath : string) (err : error)
    (* "Error backing up %s: %v" *)
| BackedUp (targetPath : string)
    (* "Backed up: %s -> %s.bak" *)
| WouldCreate (targetPath sourcePath : string)
    (* "Would create: %s -> %s" *)
| ErrorCreatingDirectory (targetPath : string) (err : error)
    (* "Error creating directory for %s: %v" *)
| ErrorCreatingLink (targetPath sourcePath : string) (err : error)
    (* "Error creating link %s -> %s: %v" *)
| Created (targetPath sourcePath : string).
    (* "Created: %s -> %s" *)

(** The two streams the commands write to. *)
Inductive Stream := Stdout | Stderr.

(** What a run does, in order: a call of package os, with the state it was
    issued in, or a line printed on one of the streams. *)
Inductive Event (FS : Type) :=
| EvCall (before : FS) (c : Call)
| EvPrint (w : Stream) (m : Msg).
Arguments EvCall {FS} before c.
Arguments EvPrint {FS} w m.

(** A command of the program: from a filesystem state to a value, the next
    state and the events of the run. *)
Definition M (FS A : Type) : Type := FS → A * FS * list (Event FS).

Global Instance M_ret {FS} : MRet (M FS) := λ A a fs, (a, fs, []).

Global Instance M_bind {FS} : MBind (M FS) := λ A B f m fs,
  let '(a, fs1, l1) := m fs in
  let '(b, fs2, l2) := f a fs1 in
  (b, fs2, l1 ++ l2).

(** [fmt.Printf] and [fmt.Fprintf(os.Stderr, ...)]. *)
Definition Printf {FS} (m : Msg) : M FS unit :=
  λ fs, (tt, fs, [EvPrint Stdout m]).
Definition Eprintf {FS} (m : Msg) : M FS unit :=
  λ fs, (tt, fs, [EvPrint Stderr m]).

(** [for source, target := range entries], threading the variables [S] the
    body assigns. *)
Fixpoint for_range {FS S} (entries : list (string * string))
    (body : S → string → string → M FS S) (s : S) : M FS S :=
  match entries with
  | [] => mret s
  | e :: rest => s' ← body s e.1 e.2; for_range rest body s'
  end.

(** [for _, x := range xs] over a slice. *)
Fixpoint for_each {FS A} (xs : list A) (body : A → M FS unit) : M FS unit :=
  match xs with
  | [] => mret tt
  | x :: rest => body x;; for_each rest body
  end.

(** The value, final state and events of a run. *)
Definition value_of {FS A} (r : A * FS * list (Event FS)) : A := r.1.1.
Definition state_of {FS A} (r : A * FS * list (Event FS)) : FS := r.1.2.
Definition events_of {FS A} (r : A * FS * list (Event FS))
    : list (Event FS) := r.2.

(** The calls of a run, and the lines it printed. *)
Definition calls {FS} (l : list (Event FS)) : list Call :=
  omap (λ ev, match ev with EvCall _ c => Some c | _ => None end) l.
Definition printed {FS} (l : list (Event FS)) : list (Stream * Msg) :=
  omap (λ ev, match ev with EvPrint w m => Some (w, m) | _ => None end) l.

Module os.
Section calls.
Context {FS : Type} `{!OS FS}.

Definition Stat (name : string) : M FS (Result FileInfo) :=
  λ fs, (sys_stat fs name, fs, [EvCall fs (CStat name)]).
Definition Lstat (name : string) : M FS (Result FileInfo) :=
  λ fs, (sys_lstat fs name, fs, [EvCall fs (CLstat name)]).
Definition Readlink (name : string) : M FS (Result string) :=
  λ fs, (sys_readlink fs name, fs, [EvCall fs (CReadlink name)]).
Definition Remove (name : string) : M FS (option error) :=
  λ fs, let '(fs', err) := sys_remove fs name in
        (err, fs', [EvCall fs (CRemove name)]).
Definition RemoveAll (path : string) : M FS (option error) :=
  λ fs, let '(fs', err) := sys_remove_all fs path in
        (err, fs', [EvCall fs (CRemoveAll path)]).
Definition Rename (oldpath newpath : string) : M FS (option error) :=
  λ fs, let '(fs', err) := sys_rename fs oldpath newpath in
        (err, fs', [EvCall fs (CRename oldpath newpath)]).
Definition MkdirAll (path : string) : M FS (option error) :=
  λ fs, let '(fs', err) := sys_mkdir_all fs path in
        (err, fs', [EvCall fs (CMkdirAll path)]).
Definition Symlink (oldname newname : string) : M FS (option error) :=
  λ fs, let '(fs', err) := sys_symlink fs oldname newname in
        (err, fs', [EvCall fs (CSymlink oldname newname)]).

End calls.
End os.

(** A read of the filesystem that is no event: the configuration loader. *)
Definition read {FS A} (f : FS → A) : M FS A := λ fs, (f fs, fs, []).

(** [strings.HasPrefix(s, prefix)]. *)
Definition HasPrefix (s prefix : string) : bool := String.prefix prefix s.

(** The slice [s[n:]]. *)
Definition slice_from (n : nat) (s : string) : string :=
  String.substring n (String.length s - n) s.

(** ** Package dotfiles *)

Module dotfiles.
Section defs.
Context {FS : Type} `{!OS FS}.

Definition GetDotfilesDir : Result string :=
  let dotDir := sys_getenv "DOT_DIR" in
  if negb (String.eqb dotDir "") then Ok dotDir
  else
    match sys_user_home_dir with
    | Err err => Err (Wrapped "failed to get user home directory" "" err)
    | Ok homeDir => Ok (path_join homeDir ".dotfiles")
    end.

End defs.
End dotfiles.

(** ** Package utils *)

Module utils.
Section defs.
Context {FS : Type} `{!OS FS}.

(** [ExpandPath] expands ~ to the user's home directory. *)
Definition ExpandPath (path : string) : string :=
  if negb (HasPrefix path "~") then path
  else
    match sys_user_home_dir with
    | Err _ => path
    | Ok homeDir =>
        if String.eqb path "~" then homeDir
        else if HasPrefix path "~/" then path_join homeDir (slice_from 2 path)
        else path
    end.

(** [BackupFile] renames [path] to [path.bak], removing an existing backup
    first. *)
Definition BackupFile (path : string) : M FS (option error) :=
  let backupPath := path +:+ ".bak" in
  st ← os.Stat backupPath;
  rm ← match st with
       | Ok _ => os.RemoveAll backupPath
       | Err _ => mret None
       end;
  match rm with
  | Some err =>
      mret (Some (Wrapped "failed to remove existing backup" backupPath err))
  | None =>
      rn ← os.Rename path backupPath;
      match rn with
      | Some err =>
          mret (Some (Wrapped "failed to create backup" backupPath err))
      | None => mret None
      end
  end.

(** [FileExists] checks if a file or directory exists. *)
Definition FileExists (path : string) : M FS bool :=
  st ← os.Stat path;
  mret (match st with Ok _ => true | Err _ => false end).

End defs.
End utils.

(** [strings.Split(s, sep)] for a separator of one byte: the pieces of [s]
    between the separators, one more than there are separators. *)
Fixpoint Split (s : string) (sep : Ascii.ascii) : list string :=
  match s with
  | EmptyString => [EmptyString]
  | String c rest =>
      if Ascii.eqb c sep then EmptyString :: Split rest sep
      else
        match Split rest sep with
        | piece :: pieces => String c piece :: pieces
        | [] => [String c EmptyString]
        end
  end.

(** [strings.Join(elems, sep)]. *)
Fixpoint Join (elems : list string) (sep : string) : string :=
  match elems with
  | [] => EmptyString
  | [x] => x
  | x :: rest => x +:+ sep +:+ Join rest sep
  end.

(** The lines [List] prints, one constructor per format string. *)
Inductive ListLine :=
| ListHeader (profiles : string)
    (* "Dotfiles links for profile(s): %s\n", then an empty line *)
| ListUnreadable (targetPath : string) (err : error)
    (* "<cross> %s -> ??? (error reading link: %v)" *)
| ListCorrect (targetPath sourcePath : string)
    (* "<check> %s -> %s" *)
| ListSourceMissing (targetPath sourcePath : string)
    (* "<warning> %s -> %s (source missing)" *)
| ListIncorrect (targetPath linkTarget sourcePath : string)
    (* "<cross> %s -> %s (expected: %s)" *)
| ListNotASymlink (targetPath : string)
    (* "<cross> %s (exists but not a symlink)" *)
| ListNotLinked (targetPath : string)
    (* "<cross> %s (not linked)" *)
| ListNoMappings.
    (* "No dotfile mappings found in the specified profile(s)." *)

(** ** Package linker *)

Module linker.
Section defs.
Context {FS : Type} `{!OS FS} `{!MapRange}.

(** [stat.Mode()&os.ModeSymlink != 0]. *)
Definition is_symlink (stat : FileInfo) : bool :=
  negb (N.land (Mode stat) ModeSymlink =? 0)%N.

(** Body of the loop of [Check] (lines 33-64); [issues] is the slice it
    appends to. *)
Definition check_entry (dotfilesDir : string) (issues : list Msg)
    (source target : string) : M FS (list Msg) :=
  let targetPath := utils.ExpandPath target in
  let sourcePath := path_join dotfilesDir source in
  r ← os.Lstat targetPath;
  if IsNotExist r then mret (issues ++ [MissingLink targetPath])
  else
    match r with
    | Err err => mret (issues ++ [ErrorChecking targetPath err])
    | Ok stat =>
        if (N.land (Mode stat) ModeSymlink =? 0)%N
        then mret (issues ++ [NotASymlink targetPath])
        else
          l ← os.Readlink targetPath;
          match l with
          | Err err => mret (issues ++ [ErrorReadingLink targetPath err])
          | Ok linkTarget =>
              if negb (String.eqb linkTarget sourcePath)
              then mret (issues ++ [IncorrectLink targetPath linkTarget sourcePath])
              else mret issues
          end
    end.

(** The loop of [Check] over the merged profile, and what follows it
    (lines 31-76). *)
Definition check_loop (dotfilesDir : string) (entries : list (string * string))
    : M FS (option error) :=
  issues ← for_range entries (check_entry dotfilesDir) [];
  if decide (length issues = 0)
  then Printf AllLinksCorrect;; mret None
  else
    for_each issues Eprintf;;
    mret (Some (FoundIssues (length issues))).

(** [Check] verifies that symbolic links exist and point to correct source
    files. *)
Definition Check (profiles : list string) : M FS (option error) :=
  match dotfiles.GetDotfilesDir with
  | Err err => mret (Some err)
  | Ok dotfilesDir =>
      c ← read (λ fs, config.ParseConfig fs dotfilesDir);
      match c with
      | Err err => mret (Some err)
      | Ok cfg =>
          match config.GetProfiles cfg profiles with
          | Err err => mret (Some err)
          | Ok profileMap => check_loop dotfilesDir (map_range profileMap)
          end
      end
  end.

(** Body of the loop of [Clean] (lines 95-119). *)
Definition clean_entry (target : string) : M FS unit :=
  let targetPath := utils.ExpandPath target in
  r ← os.Lstat targetPath;
  if IsNotExist r then Printf (SkippedNotFound targetPath)
  else
    match r with
    | Err err => Eprintf (ErrorChecking targetPath err)
    | Ok stat =>
        if (N.land (Mode stat) ModeSymlink =? 0)%N
        then Printf (SkippedNotASymlink targetPath)
        else
          e ← os.Remove targetPath;
          match e with
          | Some err => Eprintf (ErrorRemoving targetPath err)
          | None => Printf (Removed targetPath)
          end
    end.

Definition clean_loop (entries : list (string * string)) : M FS unit :=
  for_range entries (λ (_ : unit) _ target, clean_entry target) tt.

(** [Clean] removes all registered symbolic links. *)
Definition Clean (profiles : list string) : M FS (option error) :=
  match dotfiles.GetDotfilesDir with
  | Err err => mret (Some err)
  | Ok dotfilesDir =>
      c ← read (λ fs, config.ParseConfig fs dotfilesDir);
      match c with
      | Err err => mret (Some err)
      | Ok cfg =>
          match config.GetProfiles cfg profiles with
          | Err err => mret (Some err)
          | Ok profileMap => clean_loop (map_range profileMap);; mret None
          end
      end
  end.

(** The block of [Link] that handles an existing target (lines 153-185).
    It returns [true] where the source says [continue]. *)
Definition handle_existing (dryRun : bool) (targetPath sourcePath : string)
    : M FS bool :=
  r ← os.Lstat targetPath;
  match r with
  | Err _ => mret false
  | Ok stat =>
      if negb (N.land (Mode stat) ModeSymlink =? 0)%N
      then
        (* Target is a symlink *)
        l ← os.Readlink targetPath;
        match l with
        | Err err =>
            Eprintf (ErrorReadingExistingLink targetPath err);; mret true
        | Ok linkTarget =>
            if String.eqb linkTarget sourcePath
            then Printf (SkippedAlreadyCorrect targetPath sourcePath);; mret true
            else
              (* Remove existing symlink to override it *)
              removed ←
                (if negb dryRun
                 then os.Remove targetPath
                 else mret None);
              match removed with
              | Some err =>
                  Eprintf (ErrorRemovingExistingLink targetPath err);; mret true
              | None =>
                  Printf (Overriding targetPath linkTarget);; mret false
              end
        end
      else
        (* Target is a file or directory, back it up *)
        backed ←
          (if negb dryRun
           then utils.BackupFile targetPath
           else mret None);
        match backed with
        | Some err => Eprintf (ErrorBackingUp targetPath err);; mret true
        | None => Printf (BackedUp targetPath);; mret false
        end
  end.

(** The creation of the link (lines 187-202). *)
Definition create_link (dryRun : bool) (targetPath sourcePath : string)
    : M FS unit :=
  if dryRun then Printf (WouldCreate targetPath sourcePath)
  else
    (* Ensure target directory exists *)
    d ← os.MkdirAll (path_dir targetPath);
    match d with
    | Some err => Eprintf (ErrorCreatingDirectory targetPath err)
    | None =>
        e ← os.Symlink sourcePath targetPath;
        match e with
        | Some err => Eprintf (ErrorCreatingLink targetPath sourcePath err)
        | None => Printf (Created targetPath sourcePath)
        end
    end.

(** Body of the loop of [Link] (lines 142-203). *)
Definition link_entry (dotfilesDir : string) (dryRun : bool)
    (source target : string) : M FS unit :=
  let targetPath := utils.ExpandPath target in
  let sourcePath := path_join dotfilesDir source in
  (* Check if source file exists *)
  s ← os.Stat sourcePath;
  if IsNotExist s then Eprintf (WarningSourceMissing sourcePath)
  else
    skip ← handle_existing dryRun targetPath sourcePath;
    if (skip : bool) then mret tt
    else create_link dryRun targetPath sourcePath.

Definition link_loop (dotfilesDir : string) (dryRun : bool)
    (entries : list (string * string)) : M FS unit :=
  for_range entries (λ _ : unit, link_entry dotfilesDir dryRun) tt.

(** [Link] creates symbolic links based on the .mappings file. *)
Definition Link (profiles : list string) (dryRun : bool) : M FS (option error) :=
  match dotfiles.GetDotfilesDir with
  | Err err => mret (Some err)
  | Ok dotfilesDir =>
      c ← read (λ fs, config.ParseConfig fs dotfilesDir);
      match c with
      | Err err => mret (Some err)
      | Ok cfg =>
          match config.GetProfiles cfg profiles with
          | Err err => mret (Some err)
          | Ok profileMap =>
              link_loop dotfilesDir dryRun (map_range profileMap);; mret None
          end
      end
  end.

(** [ParseProfiles] parses a comma-separated list of profile names.
    [TrimSpace] is [strings.TrimSpace]. *)
Definition ParseProfiles (TrimSpace : string → string) (profileStr : string)
    : list string :=
  if String.eqb profileStr "" then ["general"]
  else TrimSpace <$> Split profileStr (Ascii.ascii_of_nat 44).

(** The variables of [List]: [linksFound], and the lines written to
    standard output so far. *)
Record ListState := {
  linksFound : bool;
  listed : list ListLine
}.

(** Body of the loop of [List] (lines 244-274). *)
Definition list_entry (dotfilesDir : string) (st : ListState)
    (source target : string) : M FS ListState :=
  let targetPath := utils.ExpandPath target in
  let sourcePath := path_join dotfilesDir source in
  (* Check if target exists and what type it is *)
  r ← os.Lstat targetPath;
  match r with
  | Ok stat =>
      if negb (N.land (Mode stat) ModeSymlink =? 0)%N
      then
        (* Target is a symlink *)
        l ← os.Readlink targetPath;
        line ←
          match l with
          | Err err => mret (ListUnreadable targetPath err)
          | Ok linkTarget =>
              if String.eqb linkTarget sourcePath
              then
                (* Check if source actually exists *)
                found ← utils.FileExists sourcePath;
                mret (if (found : bool)
                      then ListCorrect targetPath sourcePath
                      else ListSourceMissing targetPath sourcePath)
              else mret (ListIncorrect targetPath linkTarget sourcePath)
          end;
        mret {| linksFound := true; listed := listed st ++ [line] |}
      else
        mret {| linksFound := true;
                listed := listed st ++ [ListNotASymlink targetPath] |}
  | Err _ =>
      mret {| linksFound := true;
              listed := listed st ++ [ListNotLinked targetPath] |}
  end.

(** The loop of [List] with the header before it and the closing test
    after it (lines 239-279). *)
Definition list_loop (dotfilesDir : string) (profiles : list string)
    (entries : list (string * string)) : M FS (list ListLine) :=
  st ← for_range entries (list_entry dotfilesDir)
         {| linksFound := false;
            listed := [ListHeader (Join profiles ", ")] |};
  mret (if linksFound st then listed st
        else listed st ++ [ListNoMappings]).

(** [List] shows all symbolic links that are currently set based on the
    profiles.  Its value is what it wrote to standard output, and its
    error. *)
Definition List (profiles : list string)
    : M FS (list ListLine * option error) :=
  match dotfiles.GetDotfilesDir with
  | Err err => mret ([], Some err)
  | Ok dotfilesDir =>
      c ← read (λ fs, config.ParseConfig fs dotfilesDir);
      match c with
      | Err err => mret ([], Some err)
      | Ok cfg =>
          match config.GetProfiles cfg profiles with
          | Err err => mret ([], Some err)
          | Ok profileMap =>
              out ← list_loop dotfilesDir profiles (map_range profileMap);
              mret (out, None)
          end
      end
  end.

End defs.
End linker.

(** ** A simulated filesystem

    A flat table from path to node, enough to run the commands on concrete
    inputs: no permissions, and a directory does not own its entries. *)

Inductive Node :=
| NFile
| NDir
| NLink (target : string).

Abbreviation SimFS := (gmap string Node).

Definition sim_mode (n : Node) : N :=
  match n with
  | NFile => 0
  | NDir => N.shiftl 1 31
  | NLink _ => ModeSymlink
  end.

Definition sim_lstat (fs : SimFS) (name : string) : Result FileInfo :=
  match fs !! name with
  | None => Err (PathError ENOENT)
  | Some n => Ok {| Mode := sim_mode n |}
  end.

(** [os.Stat] follows links, up to [fuel] of them. *)
Fixpoint sim_follow (fuel : nat) (fs : SimFS) (name : string)
    : Result FileInfo :=
  match fs !! name with
  | None => Err (PathError ENOENT)
  | Some (NLink t) =>
      match fuel with
      | 0 => Err (PathError ELOOP)
      | S n => sim_follow n fs t
      end
  | Some n => Ok {| Mode := sim_mode n |}
  end.

Definition sim_readlink (fs : SimFS) (name : string) : Result string :=
  match fs !! name with
  | None => Err (PathError ENOENT)
  | Some (NLink t) => Ok t
  | Some _ => Err (PathError EINVAL)
  end.

Definition sim_remove (fs : SimFS) (name : string) : SimFS * option error :=
  match fs !! name with
  | None => (fs, Some (PathError ENOENT))
  | Some _ => (delete name fs, None)
  end.

Definition sim_remove_all (fs : SimFS) (path : string)
    : SimFS * option error :=
  (delete path fs, None).

Definition sim_rename (fs : SimFS) (oldpath newpath : string)
    : SimFS * option error :=
  match fs !! oldpath with
  | None => (fs, Some (PathError ENOENT))
  | Some n => (<[newpath := n]> (delete oldpath fs), None)
  end.

Definition sim_mkdir_all (fs : SimFS) (path : string)
    : SimFS * option error :=
  match fs !! path with
  | None => (<[path := NDir]> fs, None)
  | Some NDir => (fs, None)
  | Some _ => (fs, Some (PathError ENOTDIR))
  end.

Definition sim_symlink (fs : SimFS) (oldname newname : string)
    : SimFS * option error :=
  match fs !! newname with
  | None => (<[newname := NLink oldname]> fs, None)
  | Some _ => (fs, Some (PathError EEXIST))
  end.

(** Joining with a separator, without the cleaning [filepath.Join] adds. *)
Definition sim_join (a b : string) : string := a +:+ "/" +:+ b.

(** Index of the last separator of [s], counting from [i]. *)
Fixpoint last_slash (s : string) (i : nat) (acc : option nat) : option nat :=
  match s with
  | EmptyString => acc
  | String c s' =>
      last_slash s' (S i) (if Ascii.eqb c (Ascii.ascii_of_nat 47) then Some i else acc)
  end.

Definition sim_dir (s : string) : string :=
  match last_slash s 0 None with
  | None => "."
  | Some 0 => "/"
  | Some i => String.substring 0 i s
  end.

(** The simulated system of a user whose home is [/home/u], with the
    dotfiles in [/dot] and [cfg] as the content of its .mappings file. *)
Definition sim_os (cfg : Config) : OS SimFS := {|
  sys_stat := sim_follow 8;
  sys_lstat := sim_lstat;
  sys_readlink := sim_readlink;
  sys_remove := sim_remove;
  sys_remove_all := sim_remove_all;
  sys_rename := sim_rename;
  sys_mkdir_all := sim_mkdir_all;
  sys_symlink := sim_symlink;
  sys_getenv := λ name, if String.eqb name "DOT_DIR" then "/dot" else "";
  sys_user_home_dir := Ok "/home/u";
  path_join := sim_join;
  path_dir := sim_dir;
  toml_decode_file := λ _ _, Ok cfg
|}.

(** A configuration with one link, and filesystems to run it on. *)
Definition cfg_vim : Config :=
  {[ "general" := {[ "vim/.vimrc" := "~/.vimrc" ]} ]}.

Definition fs_sources : SimFS :=
  {[ "/dot/.mappings" := NFile; "/dot/vim/.vimrc" := NFile ]}.

Definition fs_no_source : SimFS :=
  {[ "/dot/.mappings" := NFile ]}.

(** ** Properties of mappings, and inputs for the concrete runs *)

(** No two distinct source paths map to the same target path. *)
Definition targets_unique (m : Profile) : Prop :=
  ∀ s1 s2 t, m !! s1 = Some t → m !! s2 = Some t → s1 = s2.

(** Two enumeration orders. *)
Definition range_sorted : MapRange := λ m, map_to_list m.
Definition range_reversed : MapRange := λ m, reverse (map_to_list m).

(** A default profile with two sources for one target. *)
Definition cfg_dup : Config :=
  {[ "general" := {[ "a" := "t"; "b" := "t" ]} ]}.

(** The same, with a profile that claims the target. *)
Definition cfg_dup_work : Config :=
  {[ "general" := {[ "a" := "t"; "c" := "t" ]};
     "work" := {[ "b" := "t" ]} ]}.

(** A profile that moves a source of the default profile to a new target
    and gives its old target to another source. *)
Definition cfg_stale : Config :=
  {[ "general" := {[ "a" := "t1" ]};
     "work" := {[ "a" := "t2"; "b" := "t1" ]} ]}.

(** A profile that claims the target of an entry of the default profile. *)
Definition cfg_conflict : Config :=
  {[ "general" := {[ "a" := "t" ]};
     "work" := {[ "b" := "t" ]} ]}.

(** The table of the tests of [GetProfiles]. *)
Definition cfg_test : Config :=
  {[ "general" := {[ "vim/.vimrc" := "~/.vimrc";
                     "git/.gitconfig" := "~/.gitconfig";
                     "zsh/.zshrc" := "~/.zshrc" ]};
     "work" := {[ "git/.gitconfig-work" := "~/.gitconfig";
                  "ssh/work_config" := "~/.ssh/config" ]};
     "minimal" := {[ "vim/.vimrc" := "~/.vimrc" ]} ]}.

(** ** What the properties speak about *)

(** The reverse index knows every entry of the result: the invariant of the
    loops of [GetProfiles]. *)
Definition indexed (st : config.MergeState) : Prop :=
  ∀ s t, config.result st !! s = Some t →
         config.targetToSource st !! t = Some s.

Section predicates.
Context {FS : Type} `{!OS FS}.

(** The events hold no call that can change the filesystem. *)
Definition query_only (l : list (Event FS)) : Prop :=
  Forall (λ c, mutating c = false) (calls l).

(** A command that changes nothing, from any state. *)
Definition quiet {A} (m : M FS A) : Prop :=
  ∀ fs, state_of (m fs) = fs ∧ query_only (events_of (m fs)).

(** Every event of a command satisfies [P], from any state. *)
Definition always (P : Event FS → Prop) {A} (m : M FS A) : Prop :=
  ∀ fs, Forall P (events_of (m fs)).

(** The issue an entry has in the state [fs], by the kinds [Check] reports:
    target absent, status query failed, not a symbolic link, link
    unreadable, link pointing elsewhere.  [None] when the entry is a link
    that stores the expected source path. *)
Definition issue_of (fs : FS) (dotfilesDir : string) (e : string * string)
    : option Msg :=
  let targetPath := utils.ExpandPath e.2 in
  let sourcePath := path_join dotfilesDir e.1 in
  match sys_lstat fs targetPath with
  | Err (PathError ENOENT) => Some (MissingLink targetPath)
  | Err err => Some (ErrorChecking targetPath err)
  | Ok stat =>
      if linker.is_symlink stat then
        match sys_readlink fs targetPath with
        | Err err => Some (ErrorReadingLink targetPath err)
        | Ok linkTarget =>
            if decide (linkTarget = sourcePath) then None
            else Some (IncorrectLink targetPath linkTarget sourcePath)
        end
      else Some (NotASymlink targetPath)
  end.

(** The event is no change of the filesystem, or it is the removal of a
    path that [Lstat] reports as a symbolic link in the state the call is
    issued in. *)
Definition removes_link_only (ev : Event FS) : Prop :=
  match ev with
  | EvCall before c =>
      mutating c = true →
      ∃ name stat, c = CRemove name ∧
                   sys_lstat before name = Ok stat ∧
                   linker.is_symlink stat = true
  | EvPrint _ _ => True
  end.

(** The event is no call, or a call of [Lstat] or [Remove]: the content of
    a link is never read. *)
Definition lstat_or_remove (ev : Event FS) : Prop :=
  match ev with
  | EvCall _ c => ∃ name, c = CLstat name ∨ c = CRemove name
  | EvPrint _ _ => True
  end.

(** The entry needs nothing done in the state [fs]: its source exists and
    its target is a symbolic link that stores the expected source path. *)
Definition settled (fs : FS) (dotfilesDir : string) (e : string * string)
    : Prop :=
  let targetPath := utils.ExpandPath e.2 in
  let sourcePath := path_join dotfilesDir e.1 in
  IsNotExist (sys_stat fs sourcePath) = false ∧
  ∃ stat, sys_lstat fs targetPath = Ok stat ∧
          linker.is_symlink stat = true ∧
          sys_readlink fs targetPath = Ok sourcePath.

(** The line that reports an entry as already correct. *)
Definition already_correct (dotfilesDir : string) (e : string * string)
    : Stream * Msg :=
  (Stdout,
   SkippedAlreadyCorrect (utils.ExpandPath e.2) (path_join dotfilesDir e.1)).

End predicates.

Section predicates_of_commands.
Context {FS : Type} `{!OS FS} `{!MapRange}.

(** What every command does first: find the dotfiles directory, load the
    configuration, merge the requested profiles. *)
Definition resolve (fs : FS) (profiles : list string)
    : Result (string * Profile) :=
  match dotfiles.GetDotfilesDir with
  | Err err => Err err
  | Ok dotfilesDir =>
      match config.ParseConfig fs dotfilesDir with
      | Err err => Err err
      | Ok cfg =>
          match config.GetProfiles cfg profiles with
          | Err err => Err err
          | Ok profileMap => Ok (dotfilesDir, profileMap)
          end
      end
  end.

(** The calls [Link] may issue for an entry: queries on the source, the
    target and the backup of the target, and changes of the target, of its
    backup and of its directory. *)
Definition link_calls (dotfilesDir : string) (e : string * string)
    : list Call :=
  let targetPath := utils.ExpandPath e.2 in
  let sourcePath := path_join dotfilesDir e.1 in
  [CStat sourcePath; CLstat targetPath; CReadlink targetPath;
   CRemove targetPath;
   CStat (targetPath +:+ ".bak"); CRemoveAll (targetPath +:+ ".bak");
   CRename targetPath (targetPath +:+ ".bak");
   CMkdirAll (path_dir targetPath); CSymlink sourcePath targetPath].

(** The state after a call of package os. *)
Definition run_call (fs : FS) (c : Call) : FS :=
  match c with
  | CStat _ | CLstat _ | CReadlink _ => fs
  | CRemove name => (sys_remove fs name).1
  | CRemoveAll path => (sys_remove_all fs path).1
  | CRename oldpath newpath => (sys_rename fs oldpath newpath).1
  | CMkdirAll path => (sys_mkdir_all fs path).1
  | CSymlink oldname newname => (sys_symlink fs oldname newname).1
  end.

(** The changes [Link] may make for an entry: to its target, to the backup
    of its target and to the directory of its target. *)
Definition link_changes (dotfilesDir : string) (e : string * string)
    : list Call :=
  let targetPath := utils.ExpandPath e.2 in
  let sourcePath := path_join dotfilesDir e.1 in
  [CRemove targetPath;
   CRemoveAll (targetPath +:+ ".bak");
   CRename targetPath (targetPath +:+ ".bak");
   CMkdirAll (path_dir targetPath); CSymlink sourcePath targetPath].

(** The entries are independent of each other in the states that satisfy
    [I]: a change [Link] makes for an entry leads to such a state again,
    does not make the source of the entry absent, leaves every entry with
    another target settled that was settled, and, when it is the creation
    of the link and succeeds, leaves at the target a symbolic link that
    stores the source path. *)
Definition independent (I : FS → Prop) (dotfilesDir : string)
    (entries : list (string * string)) : Prop :=
  ∀ fs e c,
    I fs → e ∈ entries → c ∈ link_changes dotfilesDir e →
    let targetPath := utils.ExpandPath e.2 in
    let sourcePath := path_join dotfilesDir e.1 in
    I (run_call fs c) ∧
    (IsNotExist (sys_stat fs sourcePath) = false →
     IsNotExist (sys_stat (run_call fs c) sourcePath) = false) ∧
    (∀ e', e' ∈ entries → utils.ExpandPath e'.2 ≠ targetPath →
           settled fs dotfilesDir e' →
           settled (run_call fs c) dotfilesDir e') ∧
    (c = CSymlink sourcePath targetPath →
     (sys_symlink fs sourcePath targetPath).2 = None →
     ∃ stat, sys_lstat (run_call fs c) targetPath = Ok stat ∧
             linker.is_symlink stat = true ∧
             sys_readlink (run_call fs c) targetPath = Ok sourcePath).

(** The event is no call of [Remove], or it removes the target of an
    entry that [Lstat] reports as a symbolic link and [Readlink] as
    pointing elsewhere than at the source of the entry, in the state the
    call is issued in. *)
Definition removes_wrong_link_only (dotfilesDir : string)
    (entries : list (string * string)) (ev : Event FS) : Prop :=
  match ev with
  | EvCall before (CRemove name) =>
      ∃ e stat linkTarget,
        e ∈ entries ∧ name = utils.ExpandPath e.2 ∧
        sys_lstat before name = Ok stat ∧ linker.is_symlink stat = true ∧
        sys_readlink before name = Ok linkTarget ∧
        linkTarget ≠ path_join dotfilesDir e.1
  | _ => True
  end.

(** The line says that [Link] leaves the entry: its source is missing, its
    link is already correct, or the link or file in its place could not be
    read, removed or backed up. *)
Definition entry_left (line : Stream * Msg) : Prop :=
  match line.2 with
  | WarningSourceMissing _ | SkippedAlreadyCorrect _ _
  | ErrorReadingExistingLink _ _ | ErrorRemovingExistingLink _ _
  | ErrorBackingUp _ _ => True
  | _ => False
  end.

(** The call creates a directory or a link. *)
Definition creates (c : Call) : Prop :=
  match c with
  | CMkdirAll _ | CSymlink _ _ => True
  | _ => False
  end.

(** The line of a dry run as the run that is no dry run prints it. *)
Definition realised (line : Stream * Msg) : Stream * Msg :=
  match line with
  | (Stdout, WouldCreate targetPath sourcePath) =>
      (Stdout, Created targetPath sourcePath)
  | _ => line
  end.

(** The line reports a change of the filesystem that failed. *)
Definition change_failed (line : Stream * Msg) : Prop :=
  match line.2 with
  | ErrorRemovingExistingLink _ _ | ErrorBackingUp _ _
  | ErrorCreatingDirectory _ _ | ErrorCreatingLink _ _ _ => True
  | _ => False
  end.

(** The line [List] prints for a link that stores the expected path. *)
Definition listed_as_linked (dotfilesDir : string) (e : string * string)
    (line : ListLine) : Prop :=
  let targetPath := utils.ExpandPath e.2 in
  let sourcePath := path_join dotfilesDir e.1 in
  line = ListCorrect targetPath sourcePath ∨
  line = ListSourceMissing targetPath sourcePath.

(** What the run of [clean] over a flattened mapping is to be, entry by
    entry: an absent target is reported as skipped; a target that is no
    symbolic link is reported as skipped and left alone; a target that is
    a symbolic link is removed, whatever it points at, and the removal is
    reported; a status query or a removal that fails is reported and the
    run goes on.  The relation holds of the state the run starts in, the
    entries, the state the run ends in and the events of the run. *)
Inductive clean_run
    : FS → list (string * string) → FS → list (Event FS) → Prop :=
| clean_run_done fs :
    clean_run fs [] fs []
| clean_run_absent fs e rest fs' evs :
    IsNotExist (sys_lstat fs (utils.ExpandPath e.2)) = true →
    clean_run fs rest fs' evs →
    clean_run fs (e :: rest) fs'
      (EvCall fs (CLstat (utils.ExpandPath e.2))
       :: EvPrint Stdout (SkippedNotFound (utils.ExpandPath e.2)) :: evs)
| clean_run_unchecked fs e rest fs' evs err :
    sys_lstat fs (utils.ExpandPath e.2) = Err err →
    IsNotExist (sys_lstat fs (utils.ExpandPath e.2)) = false →
    clean_run fs rest fs' evs →
    clean_run fs (e :: rest) fs'
      (EvCall fs (CLstat (utils.ExpandPath e.2))
       :: EvPrint Stderr (ErrorChecking (utils.ExpandPath e.2) err) :: evs)
| clean_run_not_a_link fs e rest fs' evs stat :
    sys_lstat fs (utils.ExpandPath e.2) = Ok stat →
    linker.is_symlink stat = false →
    clean_run fs rest fs' evs →
    clean_run fs (e :: rest) fs'
      (EvCall fs (CLstat (utils.ExpandPath e.2))
       :: EvPrint Stdout (SkippedNotASymlink (utils.ExpandPath e.2)) :: evs)
| clean_run_removed fs e rest fs1 fs' evs stat :
    sys_lstat fs (utils.ExpandPath e.2) = Ok stat →
    linker.is_symlink stat = true →
    sys_remove fs (utils.ExpandPath e.2) = (fs1, None) →
    clean_run fs1 rest fs' evs →
    clean_run fs (e :: rest) fs'
      (EvCall fs (CLstat (utils.ExpandPath e.2))
       :: EvCall fs (CRemove (utils.ExpandPath e.2))
       :: EvPrint Stdout (Removed (utils.ExpandPath e.2)) :: evs)
| clean_run_not_removed fs e rest fs1 fs' evs stat err :
    sys_lstat fs (utils.ExpandPath e.2) = Ok stat →
    linker.is_symlink stat = true →
    sys_remove fs (utils.ExpandPath e.2) = (fs1, Some err) →
    clean_run fs1 rest fs' evs →
    clean_run fs (e :: rest) fs'
      (EvCall fs (CLstat (utils.ExpandPath e.2))
       :: EvCall fs (CRemove (utils.ExpandPath e.2))
       :: EvPrint Stderr (ErrorRemoving (utils.ExpandPath e.2) err) :: evs).

(** The line is one [Clean] prints about the target of the entry. *)
Definition clean_line (e : string * string) (line : Stream * Msg) : Prop :=
  let targetPath := utils.ExpandPath e.2 in
  match line with
  | (Stdout, SkippedNotFound path) | (Stdout, SkippedNotASymlink path)
  | (Stdout, Removed path)
  | (Stderr, ErrorChecking path _) | (Stderr, ErrorRemoving path _) =>
      path = targetPath
  | _ => False
  end.

(** The line tells what [Link] did with the entry in the end. *)
Definition link_outcome (dotfilesDir : string) (e : string * string)
    (line : Stream * Msg) : Prop :=
  let targetPath := utils.ExpandPath e.2 in
  let sourcePath := path_join dotfilesDir e.1 in
  match line with
  | (Stderr, WarningSourceMissing source) => source = sourcePath
  | (Stderr, ErrorReadingExistingLink target _)
  | (Stderr, ErrorRemovingExistingLink target _)
  | (Stderr, ErrorBackingUp target _)
  | (Stderr, ErrorCreatingDirectory target _) => target = targetPath
  | (Stdout, SkippedAlreadyCorrect target source)
  | (Stdout, WouldCreate target source)
  | (Stdout, Created target source)
  | (Stderr, ErrorCreatingLink target source _) =>
      target = targetPath ∧ source = sourcePath
  | _ => False
  end.

(** The line tells that [Link] cleared the target of the entry, or in a
    dry run that it would. *)
Definition link_notice (e : string * string) (line : Stream * Msg) : Prop :=
  let targetPath := utils.ExpandPath e.2 in
  match line with
  | (Stdout, Overriding target _) | (Stdout, BackedUp target) =>
      target = targetPath
  | _ => False
  end.

End predicates_of_commands.

(** A link that points elsewhere, and one that stores the expected path
    with a separator appended. *)
Definition fs_wrong_link : SimFS :=
  <[ "/home/u/.vimrc" := NLink "/elsewhere" ]> fs_sources.

Definition fs_slash_link : SimFS :=
  <[ "/home/u/.vimrc" := NLink "/dot/vim/.vimrc/" ]> fs_sources.

(** The link in place, and a regular file in its place. *)
Definition fs_linked : SimFS :=
  <[ "/home/u/.vimrc" := NLink "/dot/vim/.vimrc" ]> fs_sources.

Definition fs_real_file : SimFS :=
  <[ "/home/u/.vimrc" := NFile ]> fs_sources.

(** The paths a call changes in the simulated filesystem. *)
Definition sim_writes (c : Call) : list string :=
  match c with
  | CStat _ | CLstat _ | CReadlink _ => []
  | CRemove name => [name]
  | CRemoveAll path => [path]
  | CRename oldpath newpath => [oldpath; newpath]
  | CMkdirAll path => [path]
  | CSymlink _ newname => [newname]
  end.

(** A mapping of two entries, and a state in which the target of the first
    is a file and the target of the second a link that points elsewhere. *)
Definition entries_two : list (string * string) :=
  [("vim/.vimrc", "~/.vimrc"); ("git/.gitconfig", "~/.gitconfig")].

Definition fs_two : SimFS :=
  {[ "/dot/vim/.vimrc" := NFile; "/dot/git/.gitconfig" := NFile;
     "/home/u/.vimrc" := NFile; "/home/u/.gitconfig" := NLink "/elsewhere" ]}.

(** The sources of the entries are files of the dotfiles directory. *)
Definition sources_are_files (entries : list (string * string))
    (fs : SimFS) : Prop :=
  ∀ e, e ∈ entries → fs !! sim_join "/dot" e.1 = Some NFile.

(** * Properties *)

(** ** The profile merge *)

Section merge.
Import config.

Lemma indexed_empty : indexed empty_state.
Proof. intros s t; simpl. by rewrite lookup_empty. Qed.

Lemma indexed_targets_unique st : indexed st → targets_unique (result st).
Proof.
  intros Hst s1 s2 t H1 H2.
  apply Hst in H1, H2. congruence.
Qed.

Lemma apply_entry_indexed st e : indexed st → indexed (apply_entry st e).
Proof.
  destruct e as [src target]. intros Hst s t. unfold apply_entry; simpl.
  destruct (decide (s = src)) as [->|Hs].
  - rewrite lookup_insert_eq. intros [= <-]. by rewrite lookup_insert_eq.
  - rewrite lookup_insert_ne by done. intros Hres.
    assert (result st !! s = Some t) as Hold.
    { destruct (targetToSource st !! target); [|done].
      by apply lookup_delete_Some in Hres as [_ ?]. }
    destruct (decide (t = target)) as [->|Ht].
    + rewrite (Hst _ _ Hold) in Hres.
      by rewrite lookup_delete_eq in Hres.
    + rewrite lookup_insert_ne by done. by apply Hst.
Qed.

Lemma foldl_apply_entry_indexed l st :
  indexed st → indexed (foldl apply_entry st l).
Proof.
  revert st. induction l as [|e l IH]; intros st Hst; simpl; [done|].
  by apply IH, apply_entry_indexed.
Qed.

Lemma apply_profiles_indexed `{MapRange} (c : Config) names st st' :
  indexed st → apply_profiles c names st = Ok st' → indexed st'.
Proof.
  revert st. induction names as [|n names IH]; intros st Hst; simpl.
  - by intros [= <-].
  - case_decide; [by apply IH|].
    destruct (c !! n) as [p|]; [|done].
    by apply IH, foldl_apply_entry_indexed.
Qed.

(** Seeding with entries that are one-to-one on targets keeps the index
    exact, and the result holds entries of the profile only. *)
Lemma foldl_seed_entry_indexed (all l : list (string * string)) st :
  (∀ s1 s2 t, (s1, t) ∈ all → (s2, t) ∈ all → s1 = s2) →
  l ⊆ all →
  (∀ s t, result st !! s = Some t →
          (s, t) ∈ all ∧ targetToSource st !! t = Some s) →
  ∀ s t, result (foldl seed_entry st l) !! s = Some t →
         (s, t) ∈ all ∧ targetToSource (foldl seed_entry st l) !! t = Some s.
Proof.
  intros Hinj. revert st. induction l as [|[src target] l IH];
    intros st Hl Hst; simpl; [done|].
  assert ((src, target) ∈ all) as Hin by (apply Hl, elem_of_cons; by left).
  apply IH; [intros x Hx; apply Hl, elem_of_cons; by right|].
  intros s t; simpl.
  destruct (decide (s = src)) as [->|Hs].
  - rewrite lookup_insert_eq. intros [= <-]. by rewrite lookup_insert_eq.
  - rewrite lookup_insert_ne by done. intros Hres.
    destruct (Hst _ _ Hres) as [Hall Hidx]. split; [done|].
    destruct (decide (t = target)) as [->|Ht].
    + destruct Hs. by eapply Hinj.
    + by rewrite lookup_insert_ne.
Qed.

Lemma seeded_spec `{!MapRange} `{!MapRangeOk _} (c : Config) :
  (∀ g, c !! "general" = Some g → targets_unique g) →
  indexed (seeded c) ∧
  ∀ s t, result (seeded c) !! s = Some t →
         ∃ g, c !! "general" = Some g ∧ g !! s = Some t.
Proof.
  intros Hg. unfold seeded.
  destruct (c !! "general") as [g|] eqn:Hc.
  - assert (∀ s t, (s, t) ∈ map_range g ↔ g !! s = Some t) as Hin.
    { intros s t. rewrite (map_range_perm g). apply elem_of_map_to_list. }
    pose proof (foldl_seed_entry_indexed (map_range g) (map_range g)
                  empty_state) as Hfold.
    assert (∀ s t, result (foldl seed_entry empty_state (map_range g)) !! s
                   = Some t →
                   (s, t) ∈ map_range g ∧
                   targetToSource (foldl seed_entry empty_state (map_range g))
                     !! t = Some s) as Hres.
    { apply Hfold; [|done|].
      - intros s1 s2 t H1%Hin H2%Hin. by eapply (Hg g).
      - intros s t; simpl. by rewrite lookup_empty. }
    split.
    + intros s t Hst. by apply Hres.
    + intros s t Hst. exists g. split; [done|]. by apply Hin, Hres.
  - split; [apply indexed_empty|].
    intros s t; simpl. by rewrite lookup_empty.
Qed.

(** What a profile maps is found in every enumeration of it. *)
Lemma elem_of_map_range `{!MapRange} `{!MapRangeOk _} (m : Profile) s t :
  (s, t) ∈ map_range m ↔ m !! s = Some t.
Proof. rewrite (map_range_perm m). apply elem_of_map_to_list. Qed.

(** After a profile has been applied, the index of each target the profile
    maps names a source of the profile. *)
Lemma foldl_apply_entry_index l st t :
  (∃ s, (s, t) ∈ l) →
  ∃ s, targetToSource (foldl apply_entry st l) !! t = Some s ∧ (s, t) ∈ l.
Proof.
  induction l as [|[src target] l IH] using rev_ind; intros [s Hs].
  - by apply elem_of_nil in Hs.
  - rewrite foldl_snoc; simpl.
    destruct (decide (t = target)) as [->|Ht].
    + exists src. rewrite lookup_insert_eq. split; [done|].
      apply elem_of_app; right. by apply list_elem_of_singleton.
    + rewrite lookup_insert_ne by done.
      apply elem_of_app in Hs as [Hs|Hs].
      * destruct IH as (s' & ? & ?); [by exists s|].
        exists s'. split; [done|]. apply elem_of_app; by left.
      * apply list_elem_of_singleton in Hs. congruence.
Qed.

(** After a profile has been applied, a source the profile maps is in the
    result with the profile's own target only. *)
Lemma foldl_apply_entry_source l st s t :
  s ∈ l.*1 →
  result (foldl apply_entry st l) !! s = Some t → (s, t) ∈ l.
Proof.
  induction l as [|[src target] l IH] using rev_ind; intros Hs.
  - by apply elem_of_nil in Hs.
  - rewrite foldl_snoc; simpl. rewrite fmap_app in Hs.
    destruct (decide (s = src)) as [->|Hne].
    + rewrite lookup_insert_eq. intros [= <-].
      apply elem_of_app; right. by apply list_elem_of_singleton.
    + rewrite lookup_insert_ne by done. intros Hres.
      apply elem_of_app in Hs as [Hs|Hs].
      * apply elem_of_app; left. apply IH; [done|].
        destruct (targetToSource (foldl apply_entry st l) !! target);
          [|done].
        by apply lookup_delete_Some in Hres as [_ ?].
      * simpl in Hs. apply list_elem_of_singleton in Hs. congruence.
Qed.

(** Why [GetProfiles] fails, and when. *)
Lemma apply_profiles_Err `{MapRange} (c : Config) names st e :
  apply_profiles c names st = Err e →
  ∃ n, e = ProfileNotFound n ∧ n ∈ names ∧ n ≠ "general" ∧ c !! n = None.
Proof.
  revert st. induction names as [|n names IH]; intros st; simpl; [done|].
  case_decide as Hn.
  - intros (m & ? & ? & ?)%IH. exists m. split; [done|].
    split; [by apply elem_of_cons; right|done].
  - destruct (c !! n) as [p|] eqn:Hc.
    + intros (m & ? & ? & ?)%IH. exists m. split; [done|].
      split; [by apply elem_of_cons; right|done].
    + intros [= <-]. exists n. split; [done|].
      split; [by apply elem_of_cons; left|done].
Qed.

Lemma apply_profiles_Ok `{MapRange} (c : Config) names st :
  (∀ n, n ∈ names → n ≠ "general" → is_Some (c !! n)) →
  ∃ st', apply_profiles c names st = Ok st'.
Proof.
  revert st. induction names as [|n names IH]; intros st Hall; simpl.
  - by exists st.
  - assert (∀ m, m ∈ names → m ≠ "general" → is_Some (c !! m)) as Hrest.
    { intros m Hm. apply Hall. by apply elem_of_cons; right. }
    case_decide as Hn; [by apply IH|].
    destruct (Hall n) as [p ->]; [by apply elem_of_cons; left|done|].
    by apply IH.
Qed.

Lemma GetProfiles_Err `{MapRange} (c : Config) names e :
  GetProfiles c names = Err e →
  ∃ n, e = ProfileNotFound n ∧ n ∈ names ∧ n ≠ "general" ∧ c !! n = None.
Proof.
  unfold GetProfiles.
  destruct (apply_profiles c _ (seeded c)) as [st|e'] eqn:Happ; [done|].
  intros [= <-]. apply apply_profiles_Err in Happ as (n & ? & Hn & ? & ?).
  exists n. split; [done|]. split; [|done].
  case_decide; [|done].
  apply list_elem_of_singleton in Hn. congruence.
Qed.

Lemma GetProfiles_Ok `{MapRange} (c : Config) names :
  (∀ n, n ∈ names → n ≠ "general" → is_Some (c !! n)) →
  ∃ r, GetProfiles c names = Ok r.
Proof.
  intros Hall. unfold GetProfiles.
  destruct (apply_profiles_Ok c
              (if decide (length names = 0) then ["general"] else names)
              (seeded c)) as [st ->]; [|by eexists].
  intros n Hn. case_decide; [|by apply Hall].
  apply list_elem_of_singleton in Hn. congruence.
Qed.

(** A map whose list of targets has no repetition maps no two sources to
    one target: a check that runs. *)
Lemma targets_unique_NoDup (m : Profile) :
  NoDup (map_to_list m).*2 → targets_unique m.
Proof.
  intros Hnd s1 s2 t H1%elem_of_map_to_list H2%elem_of_map_to_list.
  apply list_elem_of_lookup in H1 as [i Hi], H2 as [j Hj].
  assert (i = j) as ->.
  { eapply (NoDup_lookup _ i j t); [exact Hnd| |].
    - by rewrite list_lookup_fmap, Hi.
    - by rewrite list_lookup_fmap, Hj. }
  congruence.
Qed.

Global Instance range_sorted_ok : MapRangeOk range_sorted.
Proof. by intros m. Qed.

Global Instance range_reversed_ok : MapRangeOk range_reversed.
Proof. intros m. apply reverse_Permutation. Qed.

(** C1, as amended: when the default profile maps no two sources to one
    target (or is absent), the mapping a successful [GetProfiles] returns
    maps no two distinct sources to one target, whatever the requested names
    and the enumeration order. *)
Theorem GetProfiles_targets_unique `{!MapRange} `{!MapRangeOk _}
    (c : Config) (names : list string) (r : Profile) :
  (∀ g, c !! "general" = Some g → targets_unique g) →
  GetProfiles c names = Ok r →
  targets_unique r.
Proof.
  intros Hg. unfold GetProfiles.
  destruct (apply_profiles c _ (seeded c)) as [st|] eqn:Happ; [|done].
  intros [= <-]. apply indexed_targets_unique.
  eapply apply_profiles_indexed; [|exact Happ].
  by apply seeded_spec.
Qed.

(** C1 fails as stated: a default profile with two sources for one target
    is returned as it is. *)
Lemma GetProfiles_targets_unique_counterexample :
  ∃ r, @GetProfiles range_sorted cfg_dup [] = Ok r ∧ ¬ targets_unique r.
Proof.
  exists {[ "a" := "t"; "b" := "t" ]}. split; [by vm_compute|].
  intros Hu. by specialize (Hu "a" "b" "t" eq_refl eq_refl).
Qed.

Lemma GetProfiles_targets_unique_witness :
  ∃ r, @GetProfiles range_reversed cfg_stale ["work"] = Ok r ∧
       targets_unique r.
Proof.
  eexists. split; [by vm_compute|].
  apply (@GetProfiles_targets_unique range_reversed _ cfg_stale ["work"]).
  - intros g [= <-]. apply targets_unique_NoDup.
    by apply (bool_decide_unpack _).
  - by vm_compute.
Defined.

(** The loop over the default profile rebuilds the profile. *)
Lemma foldl_seed_entry_result l st :
  result (foldl seed_entry st l) = list_to_map (reverse l) ∪ result st.
Proof.
  revert st. induction l as [|[src target] l IH]; intros st; simpl.
  - by rewrite (left_id_L ∅ (∪)).
  - rewrite IH; simpl. rewrite reverse_cons, list_to_map_app; simpl.
    rewrite <- (assoc_L (∪)). f_equal.
    by rewrite insert_empty, <- insert_union_singleton_l.
Qed.

Lemma seeded_result `{!MapRange} `{!MapRangeOk _} (c : Config) :
  result (seeded c) = default ∅ (c !! "general").
Proof.
  unfold seeded. destruct (c !! "general") as [g|]; simpl; [|done].
  rewrite foldl_seed_entry_result; simpl. rewrite (right_id_L ∅ (∪)).
  rewrite <- (list_to_map_to_list g) at 2.
  apply list_to_map_proper.
  - rewrite reverse_Permutation, (map_range_perm g).
    apply NoDup_fst_map_to_list.
  - by rewrite reverse_Permutation, (map_range_perm g).
Qed.

(** Where the entries of the two maps come from. *)
Lemma foldl_apply_entry_origin l st s t :
  result (foldl apply_entry st l) !! s = Some t →
  (s, t) ∈ l ∨ result st !! s = Some t.
Proof.
  induction l as [|[src target] l IH] using rev_ind; [by right|].
  rewrite foldl_snoc; simpl.
  destruct (decide (s = src)) as [->|Hs].
  - rewrite lookup_insert_eq. intros [= <-]. left.
    apply elem_of_app; right. by apply list_elem_of_singleton.
  - rewrite lookup_insert_ne by done. intros Hres.
    assert (result (foldl apply_entry st l) !! s = Some t) as Hold.
    { destruct (targetToSource (foldl apply_entry st l) !! target); [|done].
      by apply lookup_delete_Some in Hres as [_ ?]. }
    destruct (IH Hold) as [Hin|Hst]; [left|by right].
    apply elem_of_app; by left.
Qed.

Lemma foldl_apply_entry_index_origin l st s t :
  targetToSource (foldl apply_entry st l) !! t = Some s →
  (s, t) ∈ l ∨ targetToSource st !! t = Some s.
Proof.
  induction l as [|[src target] l IH] using rev_ind; [by right|].
  rewrite foldl_snoc; simpl.
  destruct (decide (t = target)) as [->|Ht].
  - rewrite lookup_insert_eq. intros [= <-]. left.
    apply elem_of_app; right. by apply list_elem_of_singleton.
  - rewrite lookup_insert_ne by done. intros Hidx.
    destruct (IH Hidx) as [Hin|Hst]; [left|by right].
    apply elem_of_app; by left.
Qed.

Lemma foldl_seed_entry_index_origin l st s t :
  targetToSource (foldl seed_entry st l) !! t = Some s →
  (s, t) ∈ l ∨ targetToSource st !! t = Some s.
Proof.
  induction l as [|[src target] l IH] using rev_ind; [by right|].
  rewrite foldl_snoc; simpl.
  destruct (decide (t = target)) as [->|Ht].
  - rewrite lookup_insert_eq. intros [= <-]. left.
    apply elem_of_app; right. by apply list_elem_of_singleton.
  - rewrite lookup_insert_ne by done. intros Hidx.
    destruct (IH Hidx) as [Hin|Hst]; [left|by right].
    apply elem_of_app; by left.
Qed.

Lemma seeded_index_origin `{!MapRange} `{!MapRangeOk _} (c : Config) s t :
  targetToSource (seeded c) !! t = Some s →
  ∃ g, c !! "general" = Some g ∧ g !! s = Some t.
Proof.
  unfold seeded. destruct (c !! "general") as [g|]; [|done].
  intros [Hin|Hemp]%foldl_seed_entry_index_origin; [|done].
  exists g. split; [done|]. by apply elem_of_map_range.
Qed.

(** A profile that maps no two sources to one target is applied entry for
    entry, when none of its entries takes the target the index holds for
    another of its sources. *)
Lemma foldl_apply_entry_complete l st :
  NoDup l.*1 →
  (∀ s1 s2 t, (s1, t) ∈ l → (s2, t) ∈ l → s1 = s2) →
  (∀ t s s2, targetToSource st !! t = Some s → s ∈ l.*1 →
             (s2, t) ∈ l → s2 = s) →
  ∀ s t, (s, t) ∈ l → result (foldl apply_entry st l) !! s = Some t.
Proof.
  induction l as [|[src target] l IH] using rev_ind;
    intros Hnd Hinj Hidx s t Hin; [by apply elem_of_nil in Hin|].
  rewrite fmap_app in Hnd. apply NoDup_app in Hnd as (Hnd & Hsrc & _).
  assert (src ∉ l.*1) as Hfresh.
  { intros Hl. apply (Hsrc src Hl). by apply list_elem_of_singleton. }
  rewrite foldl_snoc; simpl.
  apply elem_of_app in Hin as [Hin|[= -> ->]%list_elem_of_singleton];
    [|by rewrite lookup_insert_eq].
  assert (s ∈ l.*1) as Hs.
  { apply list_elem_of_fmap. by exists (s, t). }
  assert (s ≠ src) as Hne by (by intros ->).
  rewrite lookup_insert_ne by done.
  assert (result (foldl apply_entry st l) !! s = Some t) as Hres.
  { apply IH; [done| | |done].
    - intros s1 s2 t' H1 H2. apply (Hinj s1 s2 t'); apply elem_of_app; by left.
    - intros t' s1 s2 Hlk Hl H2. apply (Hidx t' s1 s2 Hlk).
      + rewrite fmap_app. apply elem_of_app; by left.
      + apply elem_of_app; by left. }
  destruct (targetToSource (foldl apply_entry st l) !! target)
    as [oldSrc|] eqn:Hold; [|done].
  rewrite lookup_delete_ne; [done|]. intros ->.
  apply Hne. symmetry.
  apply foldl_apply_entry_index_origin in Hold as [Hold|Hold].
  - apply (Hinj src s target).
    + apply elem_of_app; right. by apply list_elem_of_singleton.
    + apply elem_of_app; by left.
  - apply (Hidx target s src Hold).
    + rewrite fmap_app. apply elem_of_app; by left.
    + apply elem_of_app; right. by apply list_elem_of_singleton.
Qed.

(** C2, as amended: for a profile [P] of the table, [P, general] and
    [general, P] merge to the same mapping.  In it a source that [P] maps
    has the target [P] gives it.  When the default profile maps no two
    sources to one target, a target that [P] maps is reached from sources
    of [P] only.  And every entry of [P] is in the mapping, so that [P]
    wins the conflict, when [P] maps no two sources to one target and
    gives no source the target that the default profile gives to another
    source [P] maps. *)
Theorem GetProfiles_default_first `{!MapRange} `{!MapRangeOk _}
    (c : Config) (P : string) (p : Profile) :
  c !! P = Some p →
  GetProfiles c [P; "general"] = GetProfiles c ["general"; P] ∧
  ∃ r, GetProfiles c [P; "general"] = Ok r ∧
       (∀ s t, r !! s = Some t → is_Some (p !! s) → p !! s = Some t) ∧
       ((∀ g, c !! "general" = Some g → targets_unique g) →
        ∀ s t, r !! s = Some t → (∃ s', p !! s' = Some t) →
               p !! s = Some t) ∧
       (targets_unique p →
        (∀ g s s' t, c !! "general" = Some g → g !! s = Some t →
                     is_Some (p !! s) → p !! s' = Some t → s' = s) →
        ∀ s t, p !! s = Some t → r !! s = Some t).
Proof.
  intros HP. split.
  { unfold GetProfiles; simpl. by repeat case_decide. }
  unfold GetProfiles; simpl. case_decide as HPg.
  - (* P is the default profile itself *)
    subst P. rewrite seeded_result, HP; simpl.
    exists p. split; [done|]. split; [done|]. split; [by intros _|].
    by intros _ _.
  - rewrite HP. eexists. split; [done|]. split; [|split].
    + intros s t Hr [t' Ht']. apply elem_of_map_range.
      eapply foldl_apply_entry_source; [|exact Hr].
      apply list_elem_of_fmap. exists (s, t'). split; [done|].
      by apply elem_of_map_range.
    + intros Hg s t Hr [s' Hs'].
      destruct (seeded_spec c Hg) as [Hidx _].
      destruct (foldl_apply_entry_index (map_range p) (seeded c) t)
        as (s'' & Hi & Hin).
      { exists s'. by apply elem_of_map_range. }
      apply (foldl_apply_entry_indexed (map_range p)) in Hidx.
      apply Hidx in Hr. rewrite Hi in Hr. injection Hr as ->.
      by apply elem_of_map_range.
    + intros Hp Hfree s t Hst.
      apply foldl_apply_entry_complete.
      * rewrite (map_range_perm p). apply NoDup_fst_map_to_list.
      * intros s1 s2 t' H1%elem_of_map_range H2%elem_of_map_range.
        by eapply Hp.
      * intros t' s1 s2 (g & Hg & Hgs)%seeded_index_origin
          ((s0 & t0) & -> & Hs1%elem_of_map_range)%list_elem_of_fmap
          Hs2%elem_of_map_range.
        by apply (Hfree g s0 s2 t' Hg Hgs).
      * by apply elem_of_map_range.
Qed.

(** C2 fails as stated: the default profile keeps a source on a target
    that the named profile claims, when it had two sources there. *)
Lemma GetProfiles_default_first_counterexample :
  ∃ r s, @GetProfiles range_sorted cfg_dup_work ["work"; "general"] = Ok r ∧
         cfg_dup_work !! "work" = Some {[ "b" := "t" ]} ∧
         r !! s = Some "t" ∧
         ({[ "b" := "t" ]} : Profile) !! s ≠ Some "t".
Proof.
  exists {[ "b" := "t"; "c" := "t" ]}, "c".
  split; [by vm_compute|]. split; [by vm_compute|].
  split; by vm_compute.
Qed.

Lemma GetProfiles_default_first_witness :
  @GetProfiles range_sorted cfg_conflict ["work"; "general"]
  = @GetProfiles range_sorted cfg_conflict ["general"; "work"] ∧
  ∃ r, @GetProfiles range_sorted cfg_conflict ["work"; "general"] = Ok r ∧
       r !! "b" = Some "t" ∧ r !! "a" ≠ Some "t".
Proof.
  assert (targets_unique ({[ "b" := "t" ]} : Profile)) as Hwork.
  { intros s1 s2 t [<- _]%lookup_singleton_Some [<- _]%lookup_singleton_Some.
    reflexivity. }
  assert (∀ g, cfg_conflict !! "general" = Some g → targets_unique g)
    as Hgeneral.
  { intros g [= <-].
    intros s1 s2 t [<- _]%lookup_singleton_Some [<- _]%lookup_singleton_Some.
    reflexivity. }
  assert (∀ g s s' t, cfg_conflict !! "general" = Some g → g !! s = Some t →
                      is_Some (({[ "b" := "t" ]} : Profile) !! s) →
                      ({[ "b" := "t" ]} : Profile) !! s' = Some t → s' = s)
    as Hfree.
  { intros g s s' t [= <-] [<- _]%lookup_singleton_Some [t' Hb].
    apply lookup_singleton_Some in Hb as [Hb _]. discriminate Hb. }
  assert (({[ "b" := "t" ]} : Profile) !! "a" ≠ Some "t") as Hnot.
  { intros [Hb _]%lookup_singleton_Some. discriminate Hb. }
  destruct (@GetProfiles_default_first range_sorted _ cfg_conflict "work"
              {[ "b" := "t" ]} eq_refl)
    as [Hsame (r & Hr & _ & Htarget & Hall)].
  split; [exact Hsame|]. exists r. split; [exact Hr|]. split.
  - exact (Hall Hwork Hfree "b" "t" eq_refl).
  - intros Ha. apply Hnot.
    exact (Htarget Hgeneral "a" "t" Ha (ex_intro _ "b" eq_refl)).
Defined.

(** C9: the merge depends on the order in which the entries of a profile
    are enumerated.  With the default profile mapping a to t1 and profile
    work mapping a to t2 and b to t1, one enumeration of work loses a,
    through the index entry from t1 to a that the default profile left, and
    the reverse enumeration keeps both entries. *)
Theorem GetProfiles_enumeration_order :
  MapRangeOk range_sorted ∧ MapRangeOk range_reversed ∧
  @GetProfiles range_sorted cfg_stale ["work"] = Ok {[ "b" := "t1" ]} ∧
  @GetProfiles range_reversed cfg_stale ["work"]
  = Ok {[ "a" := "t2"; "b" := "t1" ]} ∧
  @GetProfiles range_sorted cfg_stale ["work"]
  ≠ @GetProfiles range_reversed cfg_stale ["work"].
Proof.
  assert (@GetProfiles range_sorted cfg_stale ["work"]
          = Ok {[ "b" := "t1" ]}) as H1 by (by vm_compute).
  assert (@GetProfiles range_reversed cfg_stale ["work"]
          = Ok {[ "a" := "t2"; "b" := "t1" ]}) as H2 by (by vm_compute).
  split; [apply range_sorted_ok|]. split; [apply range_reversed_ok|].
  split; [exact H1|]. split; [exact H2|].
  rewrite H1, H2. intros Heq.
  assert (({[ "b" := "t1" ]} : Profile) !! "a"
          = ({[ "a" := "t2"; "b" := "t1" ]} : Profile) !! "a") as Hlk
    by congruence.
  by vm_compute in Hlk.
Qed.

End merge.

(** ** Path expansion *)

(** C10: a path that begins with the home marker and is neither the marker
    alone nor the marker followed by a separator is returned unchanged,
    whether or not the home directory is known. *)
Theorem ExpandPath_other_marker {FS : Type} `{!OS FS} (path : string) :
  HasPrefix path "~" = true →
  path ≠ "~" →
  HasPrefix path "~/" = false →
  utils.ExpandPath path = path.
Proof.
  intros Hmarker Hne Hsep. unfold utils.ExpandPath.
  rewrite Hmarker, Hsep; simpl.
  destruct sys_user_home_dir as [homeDir|]; [|done].
  by apply String.eqb_neq in Hne as ->.
Qed.

Lemma ExpandPath_other_marker_witness :
  @sys_user_home_dir _ (sim_os cfg_vim) = Ok "/home/u" ∧
  @utils.ExpandPath _ (sim_os cfg_vim) "~user/x" = "~user/x".
Proof.
  split; [done|].
  by apply (@ExpandPath_other_marker _ (sim_os cfg_vim) "~user/x").
Defined.

(** ** Runs that leave the filesystem alone *)

Section runs.
Context {FS : Type} `{!OS FS}.

Lemma calls_app (l1 l2 : list (Event FS)) :
  calls (l1 ++ l2) = calls l1 ++ calls l2.
Proof. apply omap_app. Qed.

Lemma printed_app (l1 l2 : list (Event FS)) :
  printed (l1 ++ l2) = printed l1 ++ printed l2.
Proof. apply omap_app. Qed.

Lemma query_only_app (l1 l2 : list (Event FS)) :
  query_only l1 → query_only l2 → query_only (l1 ++ l2).
Proof. unfold query_only. rewrite calls_app. apply Forall_app_2. Qed.

(** The run of a sequence is the run of its parts. *)
Lemma run_bind {A B} (m : M FS A) (f : A → M FS B) (fs : FS) :
  (m ≫= f) fs
  = (value_of (f (value_of (m fs)) (state_of (m fs))),
     state_of (f (value_of (m fs)) (state_of (m fs))),
     events_of (m fs) ++ events_of (f (value_of (m fs)) (state_of (m fs)))).
Proof.
  unfold mbind, M_bind, value_of, state_of, events_of.
  destruct (m fs) as [[a fs1] l1]; simpl.
  by destruct (f a fs1) as [[b fs2] l2].
Qed.

Lemma quiet_ret {A} (a : A) : quiet (mret a : M FS A).
Proof. intros fs. split; [done|]. apply Forall_nil_2. Qed.

Lemma quiet_bind {A B} (m : M FS A) (f : A → M FS B) :
  quiet m → (∀ a, quiet (f a)) → quiet (m ≫= f).
Proof.
  intros Hm Hf fs. rewrite run_bind.
  destruct (Hm fs) as [Hs Hq].
  destruct (Hf (value_of (m fs)) (state_of (m fs))) as [Hs' Hq'].
  split; simpl.
  - unfold state_of at 1; simpl. by rewrite Hs', Hs.
  - unfold events_of at 1; simpl. by apply query_only_app.
Qed.

Lemma quiet_Printf (m : Msg) : quiet (Printf m : M FS unit).
Proof. intros fs. split; [done|]. apply Forall_nil_2. Qed.

Lemma quiet_Eprintf (m : Msg) : quiet (Eprintf m : M FS unit).
Proof. intros fs. split; [done|]. apply Forall_nil_2. Qed.

Lemma quiet_read {A} (f : FS → A) : quiet (read f).
Proof. intros fs. split; [done|]. apply Forall_nil_2. Qed.

Lemma quiet_Stat (name : string) : quiet (os.Stat name).
Proof. intros fs. split; [done|]. by apply Forall_singleton. Qed.

Lemma quiet_Lstat (name : string) : quiet (os.Lstat name).
Proof. intros fs. split; [done|]. by apply Forall_singleton. Qed.

Lemma quiet_Readlink (name : string) : quiet (os.Readlink name).
Proof. intros fs. split; [done|]. by apply Forall_singleton. Qed.

Lemma quiet_for_range {S} (entries : list (string * string))
    (body : S → string → string → M FS S) (s : S) :
  (∀ s a b, quiet (body s a b)) → quiet (for_range entries body s).
Proof.
  intros Hbody. revert s.
  induction entries as [|e entries IH]; intros s; simpl.
  - apply quiet_ret.
  - apply quiet_bind; [apply Hbody|]. intros s'. apply IH.
Qed.

Lemma always_ret P {A} (a : A) : always P (mret a : M FS A).
Proof. intros fs. apply Forall_nil_2. Qed.

Lemma always_read P {A} (f : FS → A) : always P (read f).
Proof. intros fs. apply Forall_nil_2. Qed.

Lemma always_bind P {A B} (m : M FS A) (f : A → M FS B) :
  always P m → (∀ a, always P (f a)) → always P (m ≫= f).
Proof.
  intros Hm Hf fs. rewrite run_bind. unfold events_of at 1; simpl.
  apply Forall_app_2; [apply Hm|apply Hf].
Qed.

Lemma always_for_range P {S} (entries : list (string * string))
    (body : S → string → string → M FS S) (s : S) :
  (∀ s a b, always P (body s a b)) → always P (for_range entries body s).
Proof.
  intros Hbody. revert s.
  induction entries as [|e entries IH]; intros s; simpl.
  - apply always_ret.
  - apply always_bind; [apply Hbody|]. intros s'. apply IH.
Qed.

Lemma quiet_for_each {A} (xs : list A) (body : A → M FS unit) :
  (∀ x, quiet (body x)) → quiet (for_each xs body).
Proof.
  intros Hbody. induction xs as [|x xs IH]; simpl.
  - apply quiet_ret.
  - apply quiet_bind; [apply Hbody|]. intros _. apply IH.
Qed.

End runs.

Create HintDb quiet.
#[export] Hint Resolve quiet_ret quiet_Printf quiet_Eprintf quiet_read
  quiet_Stat quiet_Lstat quiet_Readlink : quiet.

(** Splits a command along its sequencing and its tests. *)
Ltac quiet_steps :=
  repeat first
    [ progress intros
    | solve [auto with quiet]
    | apply quiet_bind
    | apply quiet_for_range
    | apply quiet_for_each
    | case_match
    | case_decide ].

(** Evaluates a run as far as its next test. *)
Ltac run_step :=
  rewrite ?run_bind;
  unfold value_of, state_of, events_of, os.Stat, os.Lstat, os.Readlink,
    Printf, Eprintf, read, mret, M_ret;
  simpl.

(** Closes the facts about a run that has been evaluated. *)
Ltac run_done :=
  repeat split;
  first [ done | by repeat constructor | by rewrite ?app_nil_r ].

(** Evaluates a run through the calls that change the filesystem too. *)
Ltac run_calls :=
  rewrite ?run_bind;
  unfold value_of, state_of, events_of, os.Stat, os.Lstat, os.Readlink,
    os.Remove, os.RemoveAll, os.Rename, os.MkdirAll, os.Symlink,
    utils.FileExists, Printf, Eprintf, read, mret, M_ret;
  simpl.

(** Splits a run along every test it makes. *)
Ltac run_cases := repeat (run_calls; try case_match).

(** Finds an element in a list that is written out. *)
Ltac in_list :=
  repeat first
    [ by apply elem_of_cons; left
    | apply elem_of_cons; right ].

(** ** Link in dry-run mode *)

Section dry_run.
Context {FS : Type} `{!OS FS} `{!MapRange}.
Import linker.

Lemma quiet_link_entry (dotfilesDir source target : string) :
  quiet (link_entry dotfilesDir true source target).
Proof.
  unfold link_entry, handle_existing, create_link; simpl. quiet_steps.
Qed.

Lemma quiet_link_loop (dotfilesDir : string) entries :
  quiet (link_loop dotfilesDir true entries).
Proof.
  unfold link_loop. apply quiet_for_range. intros. apply quiet_link_entry.
Qed.

#[local] Hint Resolve quiet_link_loop : quiet.

(** C4: with [dryRun] set, [Link] leaves the filesystem as it found it and
    issues no call that creates, removes or renames an entry or creates a
    directory, for every requested list of profiles and every state; so does
    its loop over any flattened mapping. *)
Theorem Link_dry_run_no_mutation (profiles : list string)
    (dotfilesDir : string) (entries : list (string * string)) (fs : FS) :
  (state_of (Link profiles true fs) = fs ∧
   Forall (λ c, mutating c = false) (calls (events_of (Link profiles true fs))))
  ∧
  (state_of (link_loop dotfilesDir true entries fs) = fs ∧
   Forall (λ c, mutating c = false)
     (calls (events_of (link_loop dotfilesDir true entries fs)))).
Proof.
  split.
  - assert (quiet (Link profiles true)) as Hq; [|apply Hq].
    unfold Link. quiet_steps.
  - apply quiet_link_loop.
Qed.

End dry_run.

(** ** Check *)

Section check.
Context {FS : Type} `{!OS FS} `{!MapRange}.
Import linker.

Lemma check_entry_run dotfilesDir issues source target fs :
  value_of (check_entry dotfilesDir issues source target fs)
  = issues ++ option_list (issue_of fs dotfilesDir (source, target)) ∧
  state_of (check_entry dotfilesDir issues source target fs) = fs ∧
  query_only (events_of (check_entry dotfilesDir issues source target fs)) ∧
  printed (events_of (check_entry dotfilesDir issues source target fs)) = [].
Proof.
  unfold check_entry, issue_of, is_symlink, query_only. run_step.
  destruct (sys_lstat fs (utils.ExpandPath target))
    as [stat|[[]| | | |]]; simpl; try run_done.
  destruct (N.land (Mode stat) ModeSymlink =? 0)%N; simpl; [run_done|].
  run_step.
  destruct (sys_readlink fs (utils.ExpandPath target)) as [linkTarget|];
    simpl; [|run_done].
  destruct (String.eqb_spec linkTarget (path_join dotfilesDir source));
    simpl; case_decide; try done; run_done.
Qed.

Lemma check_entries_run dotfilesDir entries issues fs :
  value_of (for_range entries (check_entry dotfilesDir) issues fs)
  = issues ++ omap (issue_of fs dotfilesDir) entries ∧
  state_of (for_range entries (check_entry dotfilesDir) issues fs) = fs ∧
  query_only
    (events_of (for_range entries (check_entry dotfilesDir) issues fs)) ∧
  printed (events_of (for_range entries (check_entry dotfilesDir) issues fs))
  = [].
Proof.
  revert issues. induction entries as [|[source target] entries IH];
    intros issues; simpl.
  - rewrite app_nil_r. by repeat split; try apply Forall_nil_2.
  - rewrite run_bind.
    destruct (check_entry_run dotfilesDir issues source target fs)
      as (Hv & Hs & Hq & Hp).
    rewrite Hv, Hs.
    destruct (IH (issues
                  ++ option_list (issue_of fs dotfilesDir (source, target))))
      as (Hv' & Hs' & Hq' & Hp').
    unfold value_of at 1, state_of at 1, events_of at 1; simpl.
    split; [|split; [done|split]].
    + rewrite Hv', <- app_assoc. f_equal.
      by destruct (issue_of fs dotfilesDir (source, target)).
    + by apply query_only_app.
    + by rewrite printed_app, Hp, Hp'.
Qed.

Lemma print_issues_run (issues : list Msg) (fs : FS) :
  state_of (for_each issues Eprintf fs) = fs ∧
  calls (events_of (for_each issues Eprintf fs)) = [] ∧
  printed (events_of (for_each issues Eprintf fs))
  = (λ m, (Stderr, m)) <$> issues.
Proof.
  induction issues as [|m issues IH]; simpl; [done|].
  destruct IH as (Hs & Hc & Hp). run_step.
  unfold state_of, events_of, Eprintf in Hs, Hc, Hp.
  by rewrite Hs, Hc, Hp.
Qed.

Lemma quiet_check_entry dotfilesDir issues source target :
  quiet (check_entry dotfilesDir issues source target).
Proof.
  intros fs.
  by destruct (check_entry_run dotfilesDir issues source target fs)
    as (_ & ? & ? & _).
Qed.

Lemma quiet_Check (profiles : list string) : quiet (Check profiles).
Proof.
  unfold Check, check_loop. quiet_steps.
Qed.

Lemma check_loop_run dotfilesDir entries fs :
  let issues := omap (issue_of fs dotfilesDir) entries in
  value_of (check_loop dotfilesDir entries fs)
  = (if decide (length issues = 0) then None
     else Some (FoundIssues (length issues))) ∧
  printed (events_of (check_loop dotfilesDir entries fs))
  = (if decide (length issues = 0) then [(Stdout, AllLinksCorrect)]
     else (λ m, (Stderr, m)) <$> issues).
Proof.
  intros issues. unfold check_loop. rewrite run_bind.
  destruct (check_entries_run dotfilesDir entries [] fs)
    as (Hv & Hs & _ & Hp).
  rewrite Hv, Hs; simpl. fold issues.
  unfold value_of at 1, events_of at 1; simpl.
  rewrite printed_app, Hp; simpl.
  case_decide.
  - by run_step.
  - rewrite !run_bind.
    destruct (print_issues_run issues fs) as (_ & _ & Hpi).
    unfold value_of at 1, events_of at 1 2; simpl.
    rewrite printed_app, Hpi. unfold events_of; simpl.
    by rewrite app_nil_r.
Qed.

(** C8: [Check] changes nothing, whatever its outcome.  Once the mapping
    has been merged it returns an error exactly when some entry has an
    issue (target absent, status query failed, not a symbolic link, link
    unreadable, or link pointing elsewhere); the error carries the number of
    issues found over all entries, each of which is printed on standard
    error. *)
Theorem Check_counts_issues (profiles : list string) (fs : FS) :
  (state_of (Check profiles fs) = fs ∧
   Forall (λ c, mutating c = false) (calls (events_of (Check profiles fs))))
  ∧
  ∀ dotfilesDir cfg profileMap,
    dotfiles.GetDotfilesDir = Ok dotfilesDir →
    config.ParseConfig fs dotfilesDir = Ok cfg →
    config.GetProfiles cfg profiles = Ok profileMap →
    let issues := omap (issue_of fs dotfilesDir) (map_range profileMap) in
    (value_of (Check profiles fs) ≠ None ↔
     ∃ e, e ∈ map_range profileMap ∧ is_Some (issue_of fs dotfilesDir e)) ∧
    (value_of (Check profiles fs) ≠ None →
     value_of (Check profiles fs) = Some (FoundIssues (length issues))) ∧
    printed (events_of (Check profiles fs))
    = (if decide (length issues = 0) then [(Stdout, AllLinksCorrect)]
       else (λ m, (Stderr, m)) <$> issues).
Proof.
  split; [apply quiet_Check|].
  intros dotfilesDir cfg profileMap Hdir Hcfg Hmap issues.
  assert (Check profiles fs
          = check_loop dotfilesDir (map_range profileMap) fs) as ->.
  { unfold Check. rewrite Hdir. rewrite run_bind. run_step.
    rewrite Hcfg, Hmap.
    by destruct (check_loop dotfilesDir (map_range profileMap) fs)
      as [[? ?] ?]. }
  destruct (check_loop_run dotfilesDir (map_range profileMap) fs)
    as [Hv Hp].
  fold issues in Hv, Hp. rewrite Hv, Hp.
  split; [|split; [|done]].
  - split.
    + case_decide as Hlen; [done|]. intros _.
      destruct issues as [|m issues'] eqn:Hissues; [done|].
      assert (m ∈ omap (issue_of fs dotfilesDir) (map_range profileMap))
        as (e & He & Hm)%list_elem_of_omap.
      { fold issues. rewrite Hissues. by apply elem_of_cons; left. }
      exists e. by split.
    + intros (e & He & [m Hm]).
      assert (m ∈ issues) as Hin by (apply list_elem_of_omap; eauto).
      case_decide as Hlen; [|done].
      apply nil_length_inv in Hlen. rewrite Hlen in Hin.
      by apply elem_of_nil in Hin.
  - by case_decide.
Qed.

End check.

Lemma Check_counts_issues_witness :
  value_of (@linker.Check _ (sim_os cfg_vim) range_sorted [] fs_no_source)
  = Some (FoundIssues 1).
Proof.
  destruct (@Check_counts_issues _ (sim_os cfg_vim) range_sorted []
              fs_no_source) as [_ Hrun].
  destruct (Hrun "/dot" cfg_vim {[ "vim/.vimrc" := "~/.vimrc" ]})
    as (_ & Hcount & _); [vm_compute; reflexivity..|].
  assert (value_of (@linker.Check _ (sim_os cfg_vim) range_sorted []
                      fs_no_source) ≠ None) as Hne
    by (vm_compute; discriminate).
  specialize (Hcount Hne). vm_compute in Hcount. vm_compute. exact Hcount.
Defined.

(** ** Clean *)

Section clean.
Context {FS : Type} `{!OS FS} `{!MapRange}.
Import linker.

(** What [Clean] does with one entry, by the state of its target. *)
Lemma clean_entry_run (target : string) (fs : FS) :
  let targetPath := utils.ExpandPath target in
  (IsNotExist (sys_lstat fs targetPath) = true →
   clean_entry target fs
   = (tt, fs, [EvCall fs (CLstat targetPath);
               EvPrint Stdout (SkippedNotFound targetPath)])) ∧
  (∀ stat, sys_lstat fs targetPath = Ok stat → is_symlink stat = false →
   clean_entry target fs
   = (tt, fs, [EvCall fs (CLstat targetPath);
               EvPrint Stdout (SkippedNotASymlink targetPath)])) ∧
  (∀ stat, sys_lstat fs targetPath = Ok stat → is_symlink stat = true →
   clean_entry target fs
   = (tt, (sys_remove fs targetPath).1,
      [EvCall fs (CLstat targetPath); EvCall fs (CRemove targetPath);
       match (sys_remove fs targetPath).2 with
       | Some err => EvPrint Stderr (ErrorRemoving targetPath err)
       | None => EvPrint Stdout (Removed targetPath)
       end])) ∧
  (∀ err, sys_lstat fs targetPath = Err err →
   IsNotExist (sys_lstat fs targetPath) = false →
   clean_entry target fs
   = (tt, fs, [EvCall fs (CLstat targetPath);
               EvPrint Stderr (ErrorChecking targetPath err)])).
Proof.
  intros targetPath. unfold clean_entry, is_symlink. fold targetPath.
  repeat split.
  - intros Hne. run_step. by rewrite Hne.
  - intros stat Hstat Hmode. run_step. rewrite Hstat; simpl.
    apply negb_false_iff in Hmode. by rewrite Hmode.
  - intros stat Hstat Hmode. run_step. rewrite Hstat; simpl.
    apply negb_true_iff in Hmode. rewrite Hmode.
    run_step. unfold os.Remove.
    by destruct (sys_remove fs targetPath) as [fs' [err|]].
  - intros err Hstat Hne. run_step. by rewrite Hne, Hstat.
Qed.

Lemma clean_entry_events (target : string) (fs : FS) :
  Forall (λ ev, removes_link_only ev ∧ lstat_or_remove ev)
    (events_of (clean_entry target fs)).
Proof.
  destruct (clean_entry_run target fs) as (Habsent & Hother & Hlink & Herr).
  destruct (sys_lstat fs (utils.ExpandPath target)) as [stat|err] eqn:Hstat.
  - destruct (is_symlink stat) eqn:Hmode.
    + rewrite (Hlink stat eq_refl Hmode). unfold events_of; simpl.
      repeat constructor; simpl; eauto.
      * done.
      * by destruct (sys_remove fs (utils.ExpandPath target)).2.
      * by destruct (sys_remove fs (utils.ExpandPath target)).2.
    + rewrite (Hother stat eq_refl Hmode).
      repeat constructor; simpl; eauto; done.
  - destruct (IsNotExist (Err err : Result FileInfo)) eqn:Hne.
    + rewrite (Habsent eq_refl). repeat constructor; simpl; eauto; done.
    + rewrite (Herr err eq_refl eq_refl).
      repeat constructor; simpl; eauto; done.
Qed.

Lemma clean_loop_events entries :
  always (λ ev, removes_link_only ev ∧ lstat_or_remove ev)
    (clean_loop entries).
Proof.
  unfold clean_loop. apply always_for_range.
  intros _ _ target fs. apply clean_entry_events.
Qed.

Lemma clean_loop_run (entries : list (string * string)) (fs : FS) :
  clean_run fs entries (state_of (clean_loop entries fs))
    (events_of (clean_loop entries fs)).
Proof.
  unfold clean_loop. revert fs.
  induction entries as [|[source target] entries IH]; intros fs; simpl.
  - constructor.
  - rewrite run_bind.
    destruct (clean_entry_run target fs) as (Habsent & Hother & Hlink & Herr).
    destruct (clean_entry target fs) as [[[] fs1] evs] eqn:Hrun.
    specialize (IH fs1).
    unfold value_of, state_of, events_of in *; simpl in *.
    destruct (sys_lstat fs (utils.ExpandPath target)) as [stat|err] eqn:Hstat.
    + destruct (is_symlink stat) eqn:Hmode.
      * specialize (Hlink stat eq_refl Hmode).
        destruct (sys_remove fs (utils.ExpandPath target)) as [fs2 [err|]]
          eqn:Hremove; simpl in Hlink; injection Hlink as -> ->; simpl.
        -- by eapply (clean_run_not_removed fs (source, target)).
        -- by eapply (clean_run_removed fs (source, target)).
      * specialize (Hother stat eq_refl Hmode). injection Hother as -> ->.
        by eapply (clean_run_not_a_link fs (source, target)).
    + destruct (IsNotExist (Err err : Result FileInfo)) eqn:Hne.
      * specialize (Habsent eq_refl). injection Habsent as -> ->.
        apply (clean_run_absent fs (source, target)); simpl; [|done].
        by rewrite Hstat.
      * specialize (Herr err eq_refl eq_refl). injection Herr as -> ->.
        apply (clean_run_unchecked fs (source, target) _ _ _ err); simpl;
          [done| |done].
        by rewrite Hstat.
Qed.

(** C5: every change [Clean] makes is the removal of a path that [Lstat]
    reports as a symbolic link at that moment, so no entry of another kind
    is removed.  Once the mapping has been merged [Clean] returns no error,
    and its run goes through the entries in the order of the enumeration:
    an absent target and a target that is no link are reported as skipped
    and left alone; a target that is a link is removed without its content
    being read, whatever it points at, and reported as removed; a failure
    on one entry is reported and the run goes on with the next. *)
Theorem Clean_removes_links_only (profiles : list string) (fs : FS) :
  Forall (λ ev, removes_link_only ev ∧ lstat_or_remove ev)
    (events_of (Clean profiles fs))
  ∧
  (∀ dotfilesDir cfg profileMap,
     dotfiles.GetDotfilesDir = Ok dotfilesDir →
     config.ParseConfig fs dotfilesDir = Ok cfg →
     config.GetProfiles cfg profiles = Ok profileMap →
     value_of (Clean profiles fs) = None ∧
     clean_run fs (map_range profileMap) (state_of (Clean profiles fs))
       (events_of (Clean profiles fs))).
Proof.
  split.
  - assert (always (λ ev, removes_link_only ev ∧ lstat_or_remove ev)
              (Clean profiles)) as Hall; [|apply Hall].
    unfold Clean.
    repeat first
      [ progress intros
      | apply always_ret
      | apply always_read
      | apply clean_loop_events
      | apply always_bind
      | case_match ].
  - intros dotfilesDir cfg profileMap Hdir Hcfg Hmap.
    pose proof (clean_loop_run (map_range profileMap) fs) as Hrun.
    unfold Clean. rewrite Hdir. run_step. rewrite Hcfg, Hmap.
    run_step. rewrite app_nil_r. split; [done|].
    by destruct (clean_loop (map_range profileMap) fs) as [[[] ?] ?].
Qed.

End clean.

Lemma Clean_removes_links_only_witness :
  @clean_run _ (sim_os cfg_vim) fs_wrong_link [("vim/.vimrc", "~/.vimrc")]
    (state_of (@linker.Clean _ (sim_os cfg_vim) range_sorted [] fs_wrong_link))
    (events_of (@linker.Clean _ (sim_os cfg_vim) range_sorted []
                  fs_wrong_link)) ∧
  state_of (@linker.Clean _ (sim_os cfg_vim) range_sorted [] fs_wrong_link)
  = fs_sources.
Proof.
  destruct (@Clean_removes_links_only _ (sim_os cfg_vim) range_sorted []
              fs_wrong_link) as [_ Hrun].
  destruct (Hrun "/dot" cfg_vim {[ "vim/.vimrc" := "~/.vimrc" ]})
    as [_ Hclean]; [vm_compute; reflexivity..|].
  split; [exact Hclean|vm_compute; reflexivity].
Defined.

(** ** Comparison of a link with its expected source *)

Section comparison.
Context {FS : Type} `{!OS FS} `{!MapRange}.
Import linker.

Lemma length_append (s t : string) :
  String.length (s +:+ t) = String.length s + String.length t.
Proof. induction s as [|c s IH]; simpl; [done|]. by rewrite IH. Qed.

Lemma append_nonempty_ne (s suffix : string) :
  suffix ≠ "" → s +:+ suffix ≠ s.
Proof.
  intros Hne Heq. apply (f_equal String.length) in Heq.
  rewrite length_append in Heq.
  destruct suffix; [done|]. simpl in Heq. lia.
Qed.

(** What [Check] does with an entry whose target is a readable link. *)
Lemma check_entry_link (dotfilesDir source target : string)
    (fs : FS) (stat : FileInfo) (linkTarget : string) (issues : list Msg) :
  let targetPath := utils.ExpandPath target in
  let sourcePath := path_join dotfilesDir source in
  sys_lstat fs targetPath = Ok stat →
  is_symlink stat = true →
  sys_readlink fs targetPath = Ok linkTarget →
  check_entry dotfilesDir issues source target fs
  = (if decide (linkTarget = sourcePath) then issues
     else issues ++ [IncorrectLink targetPath linkTarget sourcePath],
     fs,
     [EvCall fs (CLstat targetPath); EvCall fs (CReadlink targetPath)]).
Proof.
  intros targetPath sourcePath Hstat Hmode Hread.
  unfold is_symlink in Hmode. apply negb_true_iff in Hmode.
  unfold check_entry. fold targetPath sourcePath.
  run_step. rewrite Hstat; simpl. rewrite Hmode.
  run_step. rewrite Hread; simpl.
  destruct (String.eqb_spec linkTarget sourcePath); by case_decide.
Qed.

(** What [Link] does with a target that is a readable link. *)
Lemma handle_existing_link (targetPath sourcePath : string)
    (fs : FS) (stat : FileInfo) (linkTarget : string) (dryRun : bool) :
  sys_lstat fs targetPath = Ok stat →
  is_symlink stat = true →
  sys_readlink fs targetPath = Ok linkTarget →
  handle_existing dryRun targetPath sourcePath fs
  = if decide (linkTarget = sourcePath) then
      (true, fs,
       [EvCall fs (CLstat targetPath); EvCall fs (CReadlink targetPath);
        EvPrint Stdout (SkippedAlreadyCorrect targetPath sourcePath)])
    else if dryRun then
      (false, fs,
       [EvCall fs (CLstat targetPath); EvCall fs (CReadlink targetPath);
        EvPrint Stdout (Overriding targetPath linkTarget)])
    else
      (match (sys_remove fs targetPath).2 with
       | Some _ => true
       | None => false
       end,
       (sys_remove fs targetPath).1,
       [EvCall fs (CLstat targetPath); EvCall fs (CReadlink targetPath);
        EvCall fs (CRemove targetPath);
        match (sys_remove fs targetPath).2 with
        | Some err =>
            EvPrint Stderr (ErrorRemovingExistingLink targetPath err)
        | None => EvPrint Stdout (Overriding targetPath linkTarget)
        end]).
Proof.
  intros Hstat Hmode Hread. unfold is_symlink in Hmode.
  unfold handle_existing.
  run_step. rewrite Hstat; simpl. rewrite Hmode.
  run_step. rewrite Hread; simpl.
  destruct (String.eqb_spec linkTarget sourcePath); case_decide; try done.
  destruct dryRun; simpl; run_step; [done|].
  unfold os.Remove.
  by destruct (sys_remove fs targetPath) as [fs' [err|]].
Qed.

(** C7: for an existing symbolic link at the target, [Check] and [Link]
    compare the string [Readlink] returns with the expected source path,
    the root joined with the relative source, as strings.  Equality makes
    the link correct: [Check] finds no issue and [Link] skips the entry.
    Any difference makes it incorrect: [Check] reports it and [Link]
    overrides it, also when the stored string is the expected path with
    something appended, such as a trailing separator.  Neither issues
    another call on the stored string. *)
Theorem symlink_compared_bytewise (dotfilesDir source target : string)
    (fs : FS) (stat : FileInfo) (linkTarget : string) :
  let targetPath := utils.ExpandPath target in
  let sourcePath := path_join dotfilesDir source in
  sys_lstat fs targetPath = Ok stat →
  is_symlink stat = true →
  sys_readlink fs targetPath = Ok linkTarget →
  (∀ issues,
     check_entry dotfilesDir issues source target fs
     = (if decide (linkTarget = sourcePath) then issues
        else issues ++ [IncorrectLink targetPath linkTarget sourcePath],
        fs,
        [EvCall fs (CLstat targetPath); EvCall fs (CReadlink targetPath)]))
  ∧
  (∀ dryRun,
     handle_existing dryRun targetPath sourcePath fs
     = if decide (linkTarget = sourcePath) then
         (true, fs,
          [EvCall fs (CLstat targetPath); EvCall fs (CReadlink targetPath);
           EvPrint Stdout (SkippedAlreadyCorrect targetPath sourcePath)])
       else if dryRun then
         (false, fs,
          [EvCall fs (CLstat targetPath); EvCall fs (CReadlink targetPath);
           EvPrint Stdout (Overriding targetPath linkTarget)])
       else
         (match (sys_remove fs targetPath).2 with
          | Some _ => true
          | None => false
          end,
          (sys_remove fs targetPath).1,
          [EvCall fs (CLstat targetPath); EvCall fs (CReadlink targetPath);
           EvCall fs (CRemove targetPath);
           match (sys_remove fs targetPath).2 with
           | Some err =>
               EvPrint Stderr (ErrorRemovingExistingLink targetPath err)
           | None => EvPrint Stdout (Overriding targetPath linkTarget)
           end]))
  ∧
  (∀ suffix, suffix ≠ "" → linkTarget = sourcePath +:+ suffix →
     linkTarget ≠ sourcePath ∧
     issue_of fs dotfilesDir (source, target)
     = Some (IncorrectLink targetPath linkTarget sourcePath)).
Proof.
  intros targetPath sourcePath Hstat Hmode Hread.
  split; [|split].
  - intros issues. by eapply check_entry_link.
  - intros dryRun. by eapply handle_existing_link.
  - intros suffix Hne ->.
    pose proof (append_nonempty_ne sourcePath suffix Hne) as Hdiff.
    split; [done|].
    unfold issue_of; simpl. fold targetPath sourcePath.
    rewrite Hstat, Hmode, Hread. by case_decide.
Qed.

End comparison.

Lemma symlink_compared_bytewise_witness :
  @issue_of _ (sim_os cfg_vim) fs_slash_link "/dot" ("vim/.vimrc", "~/.vimrc")
  = Some (IncorrectLink "/home/u/.vimrc" "/dot/vim/.vimrc/" "/dot/vim/.vimrc").
Proof.
  destruct (@symlink_compared_bytewise _ (sim_os cfg_vim) "/dot"
              "vim/.vimrc" "~/.vimrc" fs_slash_link
              {| Mode := ModeSymlink |} "/dot/vim/.vimrc/")
    as (_ & _ & Hsuffix); [vm_compute; reflexivity..|].
  destruct (Hsuffix "/") as [_ Hissue]; [done|vm_compute; reflexivity|].
  exact Hissue.
Defined.

(** ** Link run again *)

Section relink.
Context {FS : Type} `{!OS FS} `{!MapRange}.
Import linker.

Lemma link_entry_settled dotfilesDir dryRun source target fs :
  settled fs dotfilesDir (source, target) →
  link_entry dotfilesDir dryRun source target fs
  = (tt, fs,
     [EvCall fs (CStat (path_join dotfilesDir source));
      EvCall fs (CLstat (utils.ExpandPath target));
      EvCall fs (CReadlink (utils.ExpandPath target));
      EvPrint Stdout
        (SkippedAlreadyCorrect (utils.ExpandPath target)
           (path_join dotfilesDir source))]).
Proof.
  intros (Hsrc & stat & Hstat & Hmode & Hread); simpl in *.
  unfold link_entry. run_step. rewrite Hsrc. run_step.
  rewrite (handle_existing_link _ _ _ stat (path_join dotfilesDir source)
             dryRun Hstat Hmode Hread).
  by case_decide.
Qed.

(** An entry is settled, or [Link] prints a first line for it that is
    another line. *)
Lemma link_entry_first_line dotfilesDir dryRun source target fs :
  settled fs dotfilesDir (source, target) ∨
  ∃ line rest,
    printed (events_of (link_entry dotfilesDir dryRun source target fs))
    = line :: rest ∧
    line ≠ already_correct dotfilesDir (source, target).
Proof.
  unfold link_entry, already_correct; simpl. run_step.
  destruct (IsNotExist (sys_stat fs (path_join dotfilesDir source)))
    eqn:Hsrc; [by right; eexists _, _|].
  unfold handle_existing. run_step.
  assert (∀ fs', ∃ line rest,
            printed (events_of (create_link dryRun (utils.ExpandPath target)
                                  (path_join dotfilesDir source) fs'))
            = line :: rest ∧
            line ≠ (Stdout,
                    SkippedAlreadyCorrect (utils.ExpandPath target)
                      (path_join dotfilesDir source))) as Hcreate.
  { intros fs'. unfold create_link. destruct dryRun; [by eexists _, _|].
    run_step. unfold os.MkdirAll.
    destruct (sys_mkdir_all fs' (path_dir (utils.ExpandPath target)))
      as [fs1 [err|]]; simpl; [by eexists _, _|].
    run_step. unfold os.Symlink.
    destruct (sys_symlink fs1 (path_join dotfilesDir source)
                (utils.ExpandPath target)) as [fs2 [err|]];
      by eexists _, _. }
  destruct (sys_lstat fs (utils.ExpandPath target)) as [stat|err] eqn:Hstat;
    simpl; [|run_step; right; apply Hcreate].
  destruct (negb (N.land (Mode stat) ModeSymlink =? 0)%N) eqn:Hmode.
  - run_step.
    destruct (sys_readlink fs (utils.ExpandPath target)) as [linkTarget|err]
      eqn:Hread; simpl; [|by right; eexists _, _].
    destruct (String.eqb_spec linkTarget (path_join dotfilesDir source))
      as [->|Hne].
    { left. split; [done|]. by exists stat. }
    right.
    destruct dryRun; simpl.
    + run_step. by eexists _, _.
    + run_step. unfold os.Remove.
      destruct (sys_remove fs (utils.ExpandPath target)) as [fs1 [err|]];
        simpl; run_step; by eexists _, _.
  - right. destruct dryRun; simpl.
    + run_step. by eexists _, _.
    + run_step. unfold utils.BackupFile. run_step.
      destruct (sys_stat fs (utils.ExpandPath target +:+ ".bak"))
        as [bstat|berr]; simpl.
      * unfold os.RemoveAll.
        destruct (sys_remove_all fs (utils.ExpandPath target +:+ ".bak"))
          as [fs1 [err|]]; simpl; run_step; [by eexists _, _|].
        unfold os.Rename.
        destruct (sys_rename fs1 (utils.ExpandPath target)
                    (utils.ExpandPath target +:+ ".bak")) as [fs2 [err|]];
          simpl; run_step; by eexists _, _.
      * run_step. unfold os.Rename.
        destruct (sys_rename fs (utils.ExpandPath target)
                    (utils.ExpandPath target +:+ ".bak")) as [fs2 [err|]];
          simpl; run_step; by eexists _, _.
Qed.


Lemma link_loop_settled dotfilesDir dryRun entries fs :
  Forall (settled fs dotfilesDir) entries →
  state_of (link_loop dotfilesDir dryRun entries fs) = fs ∧
  query_only (events_of (link_loop dotfilesDir dryRun entries fs)) ∧
  printed (events_of (link_loop dotfilesDir dryRun entries fs))
  = already_correct dotfilesDir <$> entries.
Proof.
  unfold link_loop.
  induction entries as [|[source target] entries IH]; intros Hall; simpl.
  - run_step. by repeat split; try apply Forall_nil_2.
  - apply Forall_cons in Hall as [He Hall].
    destruct (IH Hall) as (Hs & Hq & Hp).
    rewrite run_bind, (link_entry_settled _ _ _ _ _ He).
    unfold value_of, state_of, events_of, query_only in *. simpl in *.
    split; [done|]. split; [by repeat constructor|by rewrite Hp].
Qed.

Lemma link_loop_all_correct dotfilesDir dryRun entries fs :
  printed (events_of (link_loop dotfilesDir dryRun entries fs))
  = already_correct dotfilesDir <$> entries →
  Forall (settled fs dotfilesDir) entries.
Proof.
  unfold link_loop.
  induction entries as [|[source target] entries IH]; simpl;
    [by constructor|].
  rewrite run_bind. unfold events_of at 1; simpl. rewrite printed_app.
  destruct (link_entry_first_line dotfilesDir dryRun source target fs)
    as [He|(line & rest & Hline & Hne)].
  - rewrite (link_entry_settled _ _ _ _ _ He).
    unfold value_of, state_of, events_of in *. simpl in *.
    intros [= Hrest]. constructor; [done|]. by apply IH.
  - rewrite Hline; simpl. intros [= Hhead _]. by destruct Hne.
Qed.

(** Replaces the calls of the system by their results, in the order of the
    run. *)
Ltac thread :=
  simpl;
  repeat match goal with
         | H : _ = (_, _) |- _ => rewrite H; simpl
         end.

Lemma link_entry_creates dotfilesDir source target fs :
  let run := link_entry dotfilesDir false source target fs in
  Forall (λ line, line.1 = Stdout) (printed (events_of run)) →
  IsNotExist (sys_stat fs (path_join dotfilesDir source)) = false ∧
  Forall (λ c, mutating c = true →
               c ∈ link_changes dotfilesDir (source, target))
    (calls (events_of run)) ∧
  state_of run = foldl run_call fs (calls (events_of run)) ∧
  (settled fs dotfilesDir (source, target) ∧ state_of run = fs ∨
   ∃ before,
     calls (events_of run)
     = before ++ [CSymlink (path_join dotfilesDir source)
                    (utils.ExpandPath target)] ∧
     (sys_symlink (foldl run_call fs before) (path_join dotfilesDir source)
        (utils.ExpandPath target)).2 = None).
Proof.
  intros run. subst run.
  unfold link_entry, handle_existing, create_link, utils.BackupFile,
    link_changes, settled.
  run_cases; simpl.
  all: rewrite ?Forall_cons, ?Forall_nil; simpl; intros Hout.
  all: try (exfalso; intuition discriminate).
  all: split; [done|].
  all: split; [repeat split; first [done|intros _; in_list]|].
  all: split; [by thread|].
  - left. split; [|done]. split; [done|]. eexists. split; [done|].
    split; [done|]. f_equal. by apply String.eqb_eq.
  - right.
    match goal with
    | |- ∃ before, ?l = _ ∧ _ => exists (removelast l)
    end.
    split; [done|]. by thread.
  - right.
    match goal with
    | |- ∃ before, ?l = _ ∧ _ => exists (removelast l)
    end.
    split; [done|]. by thread.
  - right.
    match goal with
    | |- ∃ before, ?l = _ ∧ _ => exists (removelast l)
    end.
    split; [done|]. by thread.
  - right.
    match goal with
    | |- ∃ before, ?l = _ ∧ _ => exists (removelast l)
    end.
    split; [done|]. by thread.
  - right.
    match goal with
    | |- ∃ before, ?l = _ ∧ _ => exists (removelast l)
    end.
    split; [done|]. by thread.
Qed.
(** One entry of a run of [Link] that reports no warning and no error: the
    entry is settled after it, and what was settled at another target is
    still settled. *)
Lemma link_entry_lands (I : FS → Prop) dotfilesDir entries source target fs :
  independent I dotfilesDir entries →
  (source, target) ∈ entries →
  I fs →
  Forall (λ line, line.1 = Stdout)
    (printed (events_of (link_entry dotfilesDir false source target fs))) →
  let fs' := state_of (link_entry dotfilesDir false source target fs) in
  I fs' ∧
  settled fs' dotfilesDir (source, target) ∧
  ∀ e', e' ∈ entries → utils.ExpandPath e'.2 ≠ utils.ExpandPath target →
        settled fs dotfilesDir e' → settled fs' dotfilesDir e'.
Proof.
  intros Hind He HI Hout fs'. subst fs'.
  destruct (link_entry_creates dotfilesDir source target fs Hout)
    as (Hsrc & Hcalls & Hstate & Hcase).
  pose (F := λ x : FS,
          I x ∧
          IsNotExist (sys_stat x (path_join dotfilesDir source)) = false ∧
          ∀ e', e' ∈ entries →
                utils.ExpandPath e'.2 ≠ utils.ExpandPath target →
                settled fs dotfilesDir e' → settled x dotfilesDir e').
  assert (∀ cs x,
            Forall (λ c, mutating c = true →
                         c ∈ link_changes dotfilesDir (source, target)) cs →
            F x → F (foldl run_call x cs)) as Hfold.
  { induction cs as [|c cs IH]; intros x Hcs HF; simpl; [done|].
    apply Forall_cons in Hcs as [Hc Hcs]. apply IH; [done|].
    destruct HF as (HIx & Hsx & Hkx).
    destruct (mutating c) eqn:Hm; [|by destruct c].
    destruct (Hind x (source, target) c HIx He (Hc eq_refl))
      as (HI' & Hs' & Hk' & _).
    split; [done|]. split; [by apply Hs'|].
    intros e' He' Hne Hset. apply Hk'; [done..|]. by apply Hkx. }
  assert (F fs) as HF.
  { split; [done|]. split; [done|]. by intros. }
  destruct Hcase as [[Hset Hfs]|(before & Hbefore & Hok)].
  - rewrite Hfs. split; [done|]. split; [done|]. by intros.
  - rewrite Hstate, Hbefore, foldl_app; simpl.
    rewrite Hbefore in Hcalls. apply Forall_app in Hcalls as [Hcalls _].
    destruct (Hfold before fs Hcalls HF) as (HIx & Hsx & Hkx).
    destruct (Hind (foldl run_call fs before) (source, target)
                (CSymlink (path_join dotfilesDir source)
                   (utils.ExpandPath target)) HIx He)
      as (HI' & Hs' & Hk' & Hlands).
    { unfold link_changes; simpl. in_list. }
    simpl in *. split; [done|]. split.
    + split; [by apply Hs'|]. by apply Hlands.
    + intros e' He' Hne Hset. apply Hk'; [done..|]. by apply Hkx.
Qed.

Lemma link_loop_lands (I : FS → Prop) dotfilesDir entries l fs :
  independent I dotfilesDir entries →
  (∀ e, e ∈ l → e ∈ entries) →
  NoDup ((λ e, utils.ExpandPath e.2) <$> l) →
  I fs →
  Forall (λ line, line.1 = Stdout)
    (printed (events_of (link_loop dotfilesDir false l fs))) →
  let fs' := state_of (link_loop dotfilesDir false l fs) in
  I fs' ∧
  Forall (settled fs' dotfilesDir) l ∧
  ∀ e', e' ∈ entries →
        utils.ExpandPath e'.2 ∉ (λ e, utils.ExpandPath e.2) <$> l →
        settled fs dotfilesDir e' → settled fs' dotfilesDir e'.
Proof.
  intros Hind. unfold link_loop. revert fs.
  induction l as [|[source target] l IH]; intros fs Hsub Hnd HI Hout; simpl.
  - split; [done|]. split; [constructor|]. by intros.
  - simpl in Hout. rewrite run_bind in Hout |- *.
    unfold events_of at 1 in Hout. simpl in Hout.
    rewrite printed_app in Hout. apply Forall_app in Hout as [Hhead Htail].
    rewrite fmap_cons in Hnd. apply NoDup_cons in Hnd as [Hfresh Hnd].
    simpl in Hfresh.
    destruct (link_entry_lands I dotfilesDir entries source target fs)
      as (HI1 & Hset1 & Hkeep1); [done| |done..|].
    { apply Hsub. by apply elem_of_cons; left. }
    destruct (link_entry dotfilesDir false source target fs)
      as [[[] fs1] evs] eqn:Hrun.
    unfold value_of, state_of, events_of in *; simpl in *.
    destruct (IH fs1) as (HI' & Hall' & Hkeep'); [|done..|].
    { intros e He. apply Hsub. by apply elem_of_cons; right. }
    split; [done|]. split.
    + constructor; [|done].
      apply Hkeep'; [|done..].
      apply Hsub. by apply elem_of_cons; left.
    + intros e' He' Hnot Hset.
      apply not_elem_of_cons in Hnot as [Hne Hnot].
      apply Hkeep'; [done..|]. by apply Hkeep1.
Qed.

(** C6, as amended: [Link] is run on a mapping whose targets are pairwise
    distinct, from a state in which the entries are independent of each
    other, and reports no warning and no error: every entry is created or
    already correct.  Then a second run on the state the first left, in
    whatever order it enumerates the mapping, reports every entry as
    already correct, leaves the filesystem as it is and issues no call
    that changes it.  In general the second run reports every entry as
    already correct exactly when every entry is settled in the state the
    first run left: [Stat] does not report its source absent and its
    target is a symbolic link that stores the expected source path. *)
Theorem Link_second_run (I : FS → Prop) (dotfilesDir : string)
    (entries1 entries2 : list (string * string)) (fs0 : FS) :
  entries1 ≡ₚ entries2 →
  let first := link_loop dotfilesDir false entries1 fs0 in
  let fs1 := state_of first in
  let second := link_loop dotfilesDir false entries2 fs1 in
  (NoDup ((λ e, utils.ExpandPath e.2) <$> entries1) →
   I fs0 →
   independent I dotfilesDir entries1 →
   Forall (λ line, line.1 = Stdout) (printed (events_of first)) →
   printed (events_of second) = already_correct dotfilesDir <$> entries2 ∧
   state_of second = fs1 ∧
   Forall (λ c, mutating c = false) (calls (events_of second))) ∧
  (printed (events_of second) = already_correct dotfilesDir <$> entries2 ↔
   Forall (settled fs1 dotfilesDir) entries1) ∧
  (Forall (settled fs1 dotfilesDir) entries1 →
   state_of second = fs1 ∧
   Forall (λ c, mutating c = false) (calls (events_of second))).
Proof.
  intros Hperm first fs1 second.
  assert (Forall (settled fs1 dotfilesDir) entries1 →
          printed (events_of second) = already_correct dotfilesDir <$> entries2
          ∧ state_of second = fs1
          ∧ Forall (λ c, mutating c = false) (calls (events_of second)))
    as Hsettled.
  { intros Hall. rewrite Hperm in Hall.
    by destruct (link_loop_settled dotfilesDir false entries2 fs1 Hall)
      as (? & ? & ?). }
  split; [|split; [split|]].
  - intros Hnd HI Hind Hout. apply Hsettled.
    by destruct (link_loop_lands I dotfilesDir entries1 entries1 fs0)
      as (_ & ? & _).
  - intros Hall. rewrite Hperm. by eapply link_loop_all_correct.
  - intros Hall. by apply Hsettled.
  - intros Hall. by destruct (Hsettled Hall) as (_ & ? & ?).
Qed.

End relink.

(** C6 fails as stated: an entry whose source file does not exist is warned
    about on the second run as on the first, not reported as already
    correct. *)
Lemma Link_second_run_counterexample :
  let first := @linker.Link _ (sim_os cfg_vim) range_sorted [] false
                 fs_no_source in
  let second := @linker.Link _ (sim_os cfg_vim) range_sorted [] false
                  (state_of first) in
  @config.GetProfiles range_sorted cfg_vim []
  = Ok {[ "vim/.vimrc" := "~/.vimrc" ]} ∧
  value_of first = None ∧
  printed (events_of second)
  = [(Stderr, WarningSourceMissing "/dot/vim/.vimrc")] ∧
  printed (events_of second)
  ≠ [(Stdout, SkippedAlreadyCorrect "/home/u/.vimrc" "/dot/vim/.vimrc")].
Proof.
  repeat split; try (vm_compute; reflexivity).
  vm_compute. discriminate.
Qed.

(** In the simulated filesystem a call changes the paths it writes
    only. *)
Lemma sim_run_call_other (cfg : Config) (fs : SimFS) (c : Call)
    (path : string) :
  path ∉ sim_writes c →
  @run_call _ (sim_os cfg) fs c !! path = fs !! path.
Proof.
  destruct c as [| | |name|p|oldpath newpath|p|oldname newname]; simpl;
    try done.
  - intros Hne%not_elem_of_cons. unfold sim_remove.
    destruct (fs !! name); simpl; [|done].
    apply lookup_delete_ne. by destruct Hne.
  - intros Hne%not_elem_of_cons. unfold sim_remove_all; simpl.
    apply lookup_delete_ne. by destruct Hne.
  - intros [Hold [Hnew _]%not_elem_of_cons]%not_elem_of_cons.
    unfold sim_rename. destruct (fs !! oldpath); simpl; [|done].
    rewrite lookup_insert_ne by done. by apply lookup_delete_ne.
  - intros [Hne _]%not_elem_of_cons. unfold sim_mkdir_all.
    destruct (fs !! p) as [[| |]|]; simpl; try done.
    by apply lookup_insert_ne.
  - intros [Hne _]%not_elem_of_cons. unfold sim_symlink.
    destruct (fs !! newname); simpl; [done|].
    by apply lookup_insert_ne.
Qed.

(** In the simulated filesystem an entry whose source is a file is settled
    exactly when its target is a link that stores the source path. *)
Lemma sim_settled (cfg : Config) (fs : SimFS) (e : string * string) :
  fs !! sim_join "/dot" e.1 = Some NFile →
  @settled _ (sim_os cfg) fs "/dot" e ↔
  fs !! @utils.ExpandPath _ (sim_os cfg) e.2
  = Some (NLink (sim_join "/dot" e.1)).
Proof.
  intros Hsrc. unfold settled; simpl. rewrite Hsrc.
  unfold sim_lstat, sim_readlink.
  destruct (fs !! @utils.ExpandPath _ (sim_os cfg) e.2) as [[| |t]|].
  - split; [by intros (_ & stat & [= <-] & ? & _)|done].
  - split; [by intros (_ & stat & [= <-] & ? & _)|done].
  - split.
    + by intros (_ & stat & _ & _ & [= ->]).
    + intros [= ->]. split; [done|]. by eexists.
  - split; [by intros (_ & stat & ? & _)|done].
Qed.

(** The entries are independent in the simulated filesystem when no
    change for one of them writes a source or the target of another. *)
Lemma sim_independent (cfg : Config) (entries : list (string * string)) :
  Forall (λ e,
    Forall (λ c,
      Forall (λ e',
        (sim_join "/dot" e'.1 ∉ sim_writes c) ∧
        ((@utils.ExpandPath _ (sim_os cfg) e'.2)
         ≠ (@utils.ExpandPath _ (sim_os cfg) e.2) →
         (@utils.ExpandPath _ (sim_os cfg) e'.2) ∉ sim_writes c)) entries)
      (@link_changes _ (sim_os cfg) "/dot" e)) entries →
  @independent _ (sim_os cfg) (sources_are_files entries) "/dot" entries.
Proof.
  intros Hapart fs e c HI He Hc targetPath sourcePath.
  rewrite Forall_forall in Hapart. specialize (Hapart e He).
  rewrite Forall_forall in Hapart. specialize (Hapart c Hc).
  rewrite Forall_forall in Hapart.
  assert (sources_are_files entries (@run_call _ (sim_os cfg) fs c)) as HI'.
  { intros e' He'. destruct (Hapart e' He') as [Hsrc _].
    rewrite sim_run_call_other by done. by apply HI. }
  split; [done|]. split; [|split].
  - intros _. simpl. unfold sourcePath; simpl. by rewrite (HI' e He).
  - intros e' He' Hne Hset. destruct (Hapart e' He') as [_ Htgt].
    apply sim_settled; [by apply HI'|].
    rewrite sim_run_call_other by (by apply Htgt).
    apply sim_settled; [by apply HI|done].
  - intros -> Hok. simpl in *. unfold sim_symlink in *.
    destruct (fs !! targetPath) eqn:Hlookup; [done|]. simpl.
    exists {| Mode := ModeSymlink |}.
    unfold sim_lstat, sim_readlink. rewrite lookup_insert_eq. done.
Qed.

Lemma Link_second_run_witness :
  let fs1 := state_of (@linker.link_loop _ (sim_os cfg_vim) "/dot" false
                         entries_two fs_two) in
  printed (events_of (@linker.link_loop _ (sim_os cfg_vim) "/dot" false
                        (reverse entries_two) fs1))
  = @already_correct _ (sim_os cfg_vim) "/dot" <$> reverse entries_two.
Proof.
  intros fs1.
  assert (printed (events_of (@linker.link_loop _ (sim_os cfg_vim) "/dot" false
                                entries_two fs_two))
          = [(Stdout, BackedUp "/home/u/.vimrc");
             (Stdout, Created "/home/u/.vimrc" "/dot/vim/.vimrc");
             (Stdout, Overriding "/home/u/.gitconfig" "/elsewhere");
             (Stdout, Created "/home/u/.gitconfig" "/dot/git/.gitconfig")])
    as Hfirst by (vm_compute; reflexivity).
  destruct (@Link_second_run _ (sim_os cfg_vim)
              (sources_are_files entries_two) "/dot"
              entries_two (reverse entries_two) fs_two) as [Hmain _].
  { by rewrite reverse_Permutation. }
  destruct Hmain as [Hsecond _]; [| | | |exact Hsecond].
  - apply (bool_decide_unpack _). vm_compute. reflexivity.
  - intros e He. unfold entries_two in He.
    apply elem_of_cons in He as [->|He]; [reflexivity|].
    apply elem_of_cons in He as [->|He]; [reflexivity|].
    by apply elem_of_nil in He.
  - apply sim_independent.
    apply (bool_decide_unpack _). vm_compute. reflexivity.
  - rewrite Hfirst. by repeat constructor.
Defined.

(** ** A profile that is not in the table *)

Section not_found.
Context {FS : Type} `{!OS FS} `{!MapRange}.
Import linker.

(** C3: [GetProfiles] fails exactly when a requested name other than
    general is absent from the table, and its error is the profile-not-found
    error of such a name.  [Link], once it has loaded the configuration,
    then returns that error before its loop: the run has no event, so no
    call of package os on a source or a target and no line printed, and the
    filesystem is left as it is. *)
Theorem GetProfiles_not_found (c : Config) (names : list string) :
  ((∃ e, config.GetProfiles c names = Err e) ↔
   (∃ n, n ∈ names ∧ n ≠ "general" ∧ c !! n = None))
  ∧
  (∀ e, config.GetProfiles c names = Err e →
        ∃ n, e = ProfileNotFound n ∧
             n ∈ names ∧ n ≠ "general" ∧ c !! n = None)
  ∧
  (∀ (fs : FS) (dryRun : bool) (dotfilesDir : string),
     dotfiles.GetDotfilesDir = Ok dotfilesDir →
     config.ParseConfig fs dotfilesDir = Ok c →
     (∃ n, n ∈ names ∧ n ≠ "general" ∧ c !! n = None) →
     ∃ n, Link names dryRun fs = (Some (ProfileNotFound n), fs, []) ∧
          n ∈ names ∧ n ≠ "general" ∧ c !! n = None).
Proof.
  assert ((∃ n, n ∈ names ∧ n ≠ "general" ∧ c !! n = None) →
          ∃ e, config.GetProfiles c names = Err e) as Hfails.
  { intros (n & Hin & Hne & Hnone).
    destruct (config.GetProfiles c names) as [r|e] eqn:Hget; [|by exists e].
    exfalso. revert Hget. unfold config.GetProfiles.
    assert (∀ st, ∃ e, config.apply_profiles c names st = Err e) as Happ.
    { clear -Hin Hne Hnone.
      induction names as [|m names IH]; intros st;
        [by apply elem_of_nil in Hin|]; simpl.
      apply elem_of_cons in Hin as [<-|Hin].
      - case_decide; [done|]. rewrite Hnone. by eexists.
      - case_decide; [by apply IH|].
        destruct (c !! m); [by apply IH|by eexists]. }
    case_decide as Hlen.
    { apply nil_length_inv in Hlen. subst names.
      by apply elem_of_nil in Hin. }
    by destruct (Happ (config.seeded c)) as [e ->]. }
  split; [split|split].
  - intros [e (n & _ & ? & ? & ?)%GetProfiles_Err]. by exists n.
  - exact Hfails.
  - intros e. apply GetProfiles_Err.
  - intros fs dryRun dotfilesDir Hdir Hcfg Hmissing.
    destruct (Hfails Hmissing) as [e Hget].
    destruct (GetProfiles_Err _ _ _ Hget) as (n & -> & ? & ? & ?).
    exists n. split; [|done].
    unfold Link. rewrite Hdir. run_step. by rewrite Hcfg, Hget.
Qed.

End not_found.

Lemma GetProfiles_not_found_witness :
  @linker.Link _ (sim_os cfg_vim) range_sorted ["doesnotexist"] false
    fs_sources
  = (Some (ProfileNotFound "doesnotexist"), fs_sources, []).
Proof.
  destruct (@GetProfiles_not_found _ (sim_os cfg_vim) range_sorted cfg_vim
              ["doesnotexist"]) as (_ & _ & Hlink).
  destruct (Hlink fs_sources false "/dot") as (n & Hrun & Hin & _);
    [vm_compute; reflexivity..| |].
  - exists "doesnotexist".
    split; [by apply list_elem_of_singleton|]. split; [done|].
    vm_compute; reflexivity.
  - apply list_elem_of_singleton in Hin. by subst n.
Defined.

(** * Further properties of the merge *)

Section merge_more.
Import config.

(** The default name is skipped wherever it stands in the request. *)
Lemma apply_profiles_filter `{MapRange} (c : Config) names st :
  apply_profiles c names st
  = apply_profiles c (filter (λ n, n ≠ "general") names) st.
Proof.
  revert st. induction names as [|n names IH]; intros st; [done|].
  rewrite filter_cons; simpl. case_decide as Hn.
  - by rewrite decide_False by (by intros ?).
  - rewrite decide_True by done. simpl. rewrite decide_False by done.
    by destruct (c !! n).
Qed.

(** Whether the loop over the requested names fails, and with which
    error, depends neither on the order of enumeration nor on the state it
    starts from. *)
Lemma apply_profiles_Err_order (R1 R2 : MapRange) (c : Config) names
    st1 st2 e :
  @apply_profiles R1 c names st1 = Err e ↔
  @apply_profiles R2 c names st2 = Err e.
Proof.
  revert st1 st2. induction names as [|n names IH]; intros st1 st2; simpl.
  - by split.
  - case_decide; [apply IH|]. destruct (c !! n); [apply IH|done].
Qed.

(** X1: the default name in the request changes nothing, wherever it
    stands and however often.  For one order of enumeration of the maps, a
    request and the same request without the default name merge to the
    same result, success or error, and an empty request is the request for
    the default profile.  Two calls need not enumerate the maps in the
    same order, and the mapping a successful merge returns may depend on
    that order; whether the merge fails, and with which error, does not:
    for any two orders the request fails with an error exactly when the
    request without the default name fails with it. *)
Theorem GetProfiles_ignores_default (R1 R2 : MapRange) (c : Config)
    (names : list string) :
  @GetProfiles R1 c names
  = @GetProfiles R1 c (filter (λ n, n ≠ "general") names) ∧
  @GetProfiles R1 c [] = @GetProfiles R1 c ["general"] ∧
  ∀ e, @GetProfiles R1 c names = Err e ↔
       @GetProfiles R2 c (filter (λ n, n ≠ "general") names) = Err e.
Proof.
  assert (@GetProfiles R1 c names
          = @GetProfiles R1 c (filter (λ n, n ≠ "general") names)) as Hsame.
  { unfold GetProfiles.
    assert (∀ l, @apply_profiles R1 c
                   (if decide (length l = 0) then ["general"] else l)
                   (@seeded R1 c)
                 = @apply_profiles R1 c (filter (λ n, n ≠ "general") l)
                     (@seeded R1 c))
      as Hdef.
    { intros l. case_decide as Hlen; [|apply apply_profiles_filter].
      apply nil_length_inv in Hlen. by subst l. }
    rewrite Hdef, Hdef. by rewrite list_filter_filter_l by done. }
  split; [exact Hsame|]. split; [done|].
  intros e. rewrite Hsame. unfold GetProfiles.
  pose proof (apply_profiles_Err_order R1 R2 c
                (if decide (length (filter (λ n, n ≠ "general") names) = 0)
                 then ["general"] else filter (λ n, n ≠ "general") names)
                (@seeded R1 c) (@seeded R2 c) e) as Horder.
  destruct (@apply_profiles R1 c _ (@seeded R1 c)) as [st1|e1];
    destruct (@apply_profiles R2 c _ (@seeded R2 c)) as [st2|e2];
    split; intros Hfail; try done.
  all: injection Hfail as ->; destruct Horder as [H1 H2].
  all: first [ by specialize (H1 eq_refl); simplify_eq
             | by specialize (H2 eq_refl); simplify_eq ].
Qed.

(** X2: requested with no name, or with the default name only, the merge
    returns the default profile as it is in the table, and the empty
    mapping when the table has no default profile. *)
Theorem GetProfiles_default_only `{!MapRange} `{!MapRangeOk _} (c : Config) :
  GetProfiles c [] = Ok (default ∅ (c !! "general")) ∧
  GetProfiles c ["general"] = Ok (default ∅ (c !! "general")).
Proof.
  unfold GetProfiles; simpl. by rewrite seeded_result.
Qed.

Lemma GetProfiles_default_only_witness :
  @GetProfiles range_reversed cfg_stale [] = Ok {[ "a" := "t1" ]}.
Proof.
  destruct (@GetProfiles_default_only range_reversed _ cfg_stale) as [H _].
  rewrite H. reflexivity.
Defined.

Lemma apply_profiles_origin `{!MapRange} `{!MapRangeOk _}
    (c : Config) names st st' s t :
  apply_profiles c names st = Ok st' →
  (result st' !! s = Some t →
   result st !! s = Some t ∨
   ∃ n p, n ∈ names ∧ n ≠ "general" ∧ c !! n = Some p ∧ p !! s = Some t) ∧
  (targetToSource st' !! t = Some s →
   targetToSource st !! t = Some s ∨
   ∃ n p, n ∈ names ∧ n ≠ "general" ∧ c !! n = Some p ∧ p !! s = Some t).
Proof.
  revert st. induction names as [|n names IH]; intros st; simpl.
  { intros [= <-]. by split; left. }
  assert (∀ Q : string → Profile → Prop,
            (∃ m p, m ∈ names ∧ Q m p) → ∃ m p, m ∈ n :: names ∧ Q m p)
    as Hlater.
  { intros Q (m & p & Hm & HQ). exists m, p. split; [|done].
    by apply elem_of_cons; right. }
  case_decide as Hn.
  { intros [Hres Hidx]%IH. split; intros Hlk.
    - destruct (Hres Hlk) as [?|Hex]; [by left|right].
      by apply (Hlater (λ m p, m ≠ "general" ∧ c !! m = Some p ∧ _)).
    - destruct (Hidx Hlk) as [?|Hex]; [by left|right].
      by apply (Hlater (λ m p, m ≠ "general" ∧ c !! m = Some p ∧ _)). }
  destruct (c !! n) as [p|] eqn:Hc; [|done].
  assert (∀ s' t', (s', t') ∈ map_range p →
            ∃ m q, m ∈ n :: names ∧ m ≠ "general" ∧
                   c !! m = Some q ∧ q !! s' = Some t') as Hhere.
  { intros s' t' Hin. exists n, p. split; [by apply elem_of_cons; left|].
    split; [done|]. split; [done|]. by apply elem_of_map_range. }
  intros [Hres Hidx]%IH. split; intros Hlk.
  - destruct (Hres Hlk) as [Hmid|Hex].
    + apply foldl_apply_entry_origin in Hmid as [Hin|?]; [right|by left].
      by apply Hhere.
    + right.
      by apply (Hlater (λ m p, m ≠ "general" ∧ c !! m = Some p ∧ _)).
  - destruct (Hidx Hlk) as [Hmid|Hex].
    + apply foldl_apply_entry_index_origin in Hmid as [Hin|?];
        [right|by left].
      by apply Hhere.
    + right.
      by apply (Hlater (λ m p, m ≠ "general" ∧ c !! m = Some p ∧ _)).
Qed.

(** X3: the merge invents nothing: an entry of the mapping it returns is an
    entry of the default profile or of a requested profile of the table. *)
Theorem GetProfiles_entries_from_profiles `{!MapRange} `{!MapRangeOk _}
    (c : Config) (names : list string) (r : Profile) (s t : string) :
  GetProfiles c names = Ok r →
  r !! s = Some t →
  ∃ n p, (n = "general" ∨ n ∈ names) ∧ c !! n = Some p ∧ p !! s = Some t.
Proof.
  unfold GetProfiles.
  destruct (apply_profiles c _ (seeded c)) as [st|] eqn:Happ; [|done].
  intros [= <-] Hr.
  destruct (apply_profiles_origin c _ _ _ s t Happ) as [Hres _].
  destruct (Hres Hr) as [Hseed|(n & p & Hn & Hne & Hc & Hp)].
  - rewrite seeded_result in Hseed.
    destruct (c !! "general") as [g|] eqn:Hg; [|done].
    exists "general", g. by split; [left|].
  - exists n, p. split; [right|done].
    case_decide; [|done].
    apply list_elem_of_singleton in Hn. congruence.
Qed.

Lemma GetProfiles_entries_from_profiles_witness :
  ∃ n p, (n = "general" ∨ n ∈ ["work"]) ∧
         cfg_stale !! n = Some p ∧ p !! "b" = Some "t1".
Proof.
  apply (@GetProfiles_entries_from_profiles range_sorted _ cfg_stale
           ["work"] {[ "b" := "t1" ]} "b" "t1"); reflexivity.
Defined.

Lemma apply_profiles_app `{MapRange} (c : Config) l1 l2 st :
  apply_profiles c (l1 ++ l2) st
  = match apply_profiles c l1 st with
    | Ok st' => apply_profiles c l2 st'
    | Err e => Err e
    end.
Proof.
  revert st. induction l1 as [|n l1 IH]; intros st; simpl; [done|].
  case_decide; [by apply IH|]. by destruct (c !! n).
Qed.

(** X4: the error of the merge names the first requested name that is not
    the default name and is missing from the table: the names before it
    are looked up, the names after it are not. *)
Theorem GetProfiles_first_missing `{MapRange} (c : Config)
    (before after : list string) (n : string) :
  (∀ m, m ∈ before → m = "general" ∨ is_Some (c !! m)) →
  n ≠ "general" →
  c !! n = None →
  GetProfiles c (before ++ n :: after) = Err (ProfileNotFound n).
Proof.
  intros Hbefore Hn Hnone. unfold GetProfiles.
  rewrite decide_False by (rewrite length_app; simpl; lia).
  rewrite apply_profiles_app.
  destruct (apply_profiles_Ok c before (seeded c)) as [st ->].
  { intros m Hm Hne. by destruct (Hbefore m Hm). }
  simpl. rewrite decide_False by done. by rewrite Hnone.
Qed.

Lemma GetProfiles_first_missing_witness :
  @GetProfiles range_sorted cfg_stale ["general"; "work"; "x"; "y"]
  = Err (ProfileNotFound "x").
Proof.
  apply (@GetProfiles_first_missing range_sorted cfg_stale
           ["general"; "work"] ["y"] "x"); [|done|reflexivity].
  intros m [->|[->|[]%elem_of_nil]%elem_of_cons]%elem_of_cons;
    [by left|right].
  eexists; reflexivity.
Defined.

(** An entry that no applied entry touches stays: neither its source nor
    its target occurs in the entries, and the index holds no other target
    for its source. *)
Lemma foldl_apply_entry_keeps l st s t :
  (∀ src target, (src, target) ∈ l → src ≠ s ∧ target ≠ t) →
  result st !! s = Some t →
  (∀ t', targetToSource st !! t' = Some s → t' = t) →
  result (foldl apply_entry st l) !! s = Some t ∧
  (∀ t', targetToSource (foldl apply_entry st l) !! t' = Some s → t' = t).
Proof.
  revert st. induction l as [|[src target] l IH]; intros st Hl Hres Hidx;
    simpl; [done|].
  destruct (Hl src target) as [Hs Ht]; [by apply elem_of_cons; left|].
  apply IH.
  - intros src' target' Hin. apply Hl. by apply elem_of_cons; right.
  - simpl. rewrite lookup_insert_ne by done.
    destruct (targetToSource st !! target) as [oldSrc|] eqn:Hold; [|done].
    rewrite lookup_delete_ne; [done|].
    intros ->. by apply Hidx in Hold.
  - intros t'; simpl. destruct (decide (t' = target)) as [->|Hne].
    + rewrite lookup_insert_eq. by intros [= ->].
    + rewrite lookup_insert_ne by done. apply Hidx.
Qed.

(** X5: an entry of the default profile is in the merged mapping when no
    requested profile maps its source or maps a source to its target. *)
Theorem GetProfiles_keeps_default_entry `{!MapRange} `{!MapRangeOk _}
    (c : Config) (names : list string) (g r : Profile) (s t : string) :
  c !! "general" = Some g →
  g !! s = Some t →
  (∀ n p, n ∈ names → n ≠ "general" → c !! n = Some p →
          p !! s = None ∧ ∀ s', p !! s' ≠ Some t) →
  GetProfiles c names = Ok r →
  r !! s = Some t.
Proof.
  intros Hg Hst Hfree. unfold GetProfiles.
  destruct (apply_profiles c _ (seeded c)) as [st'|] eqn:Happ; [|done].
  intros [= <-].
  assert (∀ l st st',
            (∀ n, n ∈ l → n ≠ "general" → n ∈ names) →
            apply_profiles c l st = Ok st' →
            result st !! s = Some t →
            (∀ t', targetToSource st !! t' = Some s → t' = t) →
            result st' !! s = Some t) as Hloop.
  { clear Happ st'. induction l as [|n l IH]; intros st st' Hl; simpl.
    { by intros [= <-]. }
    assert (∀ m, m ∈ l → m ≠ "general" → m ∈ names) as Hl'.
    { intros m Hm. apply Hl. by apply elem_of_cons; right. }
    case_decide as Hn; [by apply IH|].
    destruct (c !! n) as [p|] eqn:Hc; [|done].
    intros Happ Hres Hidx.
    destruct (Hfree n p) as [Hsrc Htgt];
      [by apply Hl; [apply elem_of_cons; left|]|done..|].
    destruct (foldl_apply_entry_keeps (map_range p) st s t) as [Hres' Hidx'];
      [|done..|by eapply IH].
    intros src target Hin%elem_of_map_range. split.
    - intros ->. congruence.
    - intros ->. by apply (Htgt src). }
  eapply Hloop; [|exact Happ| |].
  - intros n Hn Hne. case_decide as Hlen; [|done].
    by apply list_elem_of_singleton in Hn.
  - by rewrite seeded_result, Hg.
  - intros t' (g' & Hg' & Hlk)%seeded_index_origin. congruence.
Qed.

(** Lists the entries of a concrete map that a lookup hypothesis allows. *)
Ltac entries_of H :=
  apply elem_of_map_to_list in H;
  match type of H with
  | _ ∈ ?l => let l' := eval vm_compute in l in change l with l' in H
  end;
  repeat match type of H with
         | _ ∈ _ :: _ => apply elem_of_cons in H as [H|H]
         end;
  try (by apply elem_of_nil in H).

Lemma GetProfiles_keeps_default_entry_witness :
  ∃ r, @GetProfiles range_sorted cfg_test ["work"] = Ok r ∧
       r !! "zsh/.zshrc" = Some "~/.zshrc".
Proof.
  destruct (@GetProfiles_Ok range_sorted cfg_test ["work"]) as [r Hr].
  { intros n ->%list_elem_of_singleton _. eexists; reflexivity. }
  exists r. split; [done|].
  eapply (@GetProfiles_keeps_default_entry range_sorted _ cfg_test ["work"]);
    [reflexivity..| |exact Hr].
  intros n p ->%list_elem_of_singleton _ Hp.
  assert (Some p = Some ({[ "git/.gitconfig-work" := "~/.gitconfig";
                            "ssh/work_config" := "~/.ssh/config" ]}
                         : Profile)) as [= ->]
    by (rewrite <- Hp; reflexivity).
  split; [reflexivity|].
  intros s' Hs'. entries_of Hs'; discriminate.
Defined.

(** A profile whose sources the index does not know, and which maps no two
    sources to one target, is applied entry for entry. *)
Lemma foldl_apply_entry_fresh l st :
  NoDup l.*1 →
  (∀ s1 s2 t, (s1, t) ∈ l → (s2, t) ∈ l → s1 = s2) →
  (∀ t s, targetToSource st !! t = Some s → s ∉ l.*1) →
  ∀ s t, (s, t) ∈ l → result (foldl apply_entry st l) !! s = Some t.
Proof.
  induction l as [|[src target] l IH] using rev_ind;
    intros Hnd Hinj Hidx s t Hin; [by apply elem_of_nil in Hin|].
  rewrite fmap_app in Hnd. apply NoDup_app in Hnd as (Hnd & Hsrc & _).
  assert (src ∉ l.*1) as Hfresh.
  { intros Hl. apply (Hsrc src Hl). by apply list_elem_of_singleton. }
  rewrite foldl_snoc; simpl.
  apply elem_of_app in Hin as [Hin|[= -> ->]%list_elem_of_singleton];
    [|by rewrite lookup_insert_eq].
  assert (s ∈ l.*1) as Hs.
  { apply list_elem_of_fmap. by exists (s, t). }
  assert (s ≠ src) as Hne by (by intros ->).
  rewrite lookup_insert_ne by done.
  assert (result (foldl apply_entry st l) !! s = Some t) as Hres.
  { apply IH; [done| | |done].
    - intros s1 s2 t' H1 H2. apply (Hinj s1 s2 t'); apply elem_of_app; by left.
    - intros t' s' Hlk Hl. apply (Hidx t' s' Hlk).
      rewrite fmap_app. apply elem_of_app; by left. }
  destruct (targetToSource (foldl apply_entry st l) !! target)
    as [oldSrc|] eqn:Hold; [|done].
  rewrite lookup_delete_ne; [done|]. intros ->.
  apply foldl_apply_entry_index_origin in Hold as [Hold|Hold].
  - apply Hfresh.
    rewrite <- (Hinj s src target).
    + done.
    + apply elem_of_app; by left.
    + apply elem_of_app; right. by apply list_elem_of_singleton.
  - apply (Hidx target s Hold).
    rewrite fmap_app. apply elem_of_app; by left.
Qed.

(** X6: the last requested profile is in the merged mapping entry for
    entry, when it maps no two sources to one target and none of its
    sources is a source of the default profile or of a profile requested
    before it. *)
Theorem GetProfiles_last_profile_complete `{!MapRange} `{!MapRangeOk _}
    (c : Config) (before : list string) (P : string) (p r : Profile) :
  P ≠ "general" →
  c !! P = Some p →
  targets_unique p →
  (∀ s n q, is_Some (p !! s) → n = "general" ∨ n ∈ before →
            c !! n = Some q → q !! s = None) →
  GetProfiles c (before ++ [P]) = Ok r →
  ∀ s t, p !! s = Some t → r !! s = Some t.
Proof.
  intros HP Hc Hp Hfresh. unfold GetProfiles.
  rewrite decide_False by (rewrite length_app; simpl; lia).
  rewrite apply_profiles_app.
  destruct (apply_profiles c before (seeded c)) as [st|] eqn:Hbefore;
    [|done].
  simpl. rewrite decide_False by done. rewrite Hc.
  intros [= <-] s t Hst.
  apply foldl_apply_entry_fresh.
  - rewrite (map_range_perm p). apply NoDup_fst_map_to_list.
  - intros s1 s2 t' H1%elem_of_map_range H2%elem_of_map_range.
    by eapply Hp.
  - intros t' s' Hidx (e & -> & He)%list_elem_of_fmap.
    destruct e as [s' t'']. apply elem_of_map_range in He. simpl in Hidx.
    destruct (apply_profiles_origin c _ _ _ s' t' Hbefore) as [_ Horigin].
    destruct (Horigin Hidx) as [Hseed|(n & q & Hn & _ & Hq & Hlk)].
    + apply seeded_index_origin in Hseed as (g & Hg & Hlk).
      rewrite (Hfresh s' "general" g) in Hlk; [done|by eexists|by left|done].
    + rewrite (Hfresh s' n q) in Hlk; [done|by eexists|by right|done].
  - by apply elem_of_map_range.
Qed.

Lemma GetProfiles_last_profile_complete_witness :
  ∃ r, @GetProfiles range_sorted cfg_test (["general"] ++ ["work"]) = Ok r ∧
       r !! "git/.gitconfig-work" = Some "~/.gitconfig".
Proof.
  pose ({[ "git/.gitconfig-work" := "~/.gitconfig";
           "ssh/work_config" := "~/.ssh/config" ]} : Profile) as work.
  assert (targets_unique work) as Hunique.
  { intros s1 s2 t H1 H2. subst work.
    entries_of H1; entries_of H2;
      pose proof (f_equal fst H1) as S1; pose proof (f_equal fst H2) as S2;
      pose proof (f_equal snd H1) as T1; pose proof (f_equal snd H2) as T2;
      simpl in S1, S2, T1, T2; subst s1 s2 t;
      first [reflexivity|discriminate T2]. }
  assert (∀ s n q, is_Some (work !! s) → n = "general" ∨ n ∈ ["general"] →
                   cfg_test !! n = Some q → q !! s = None) as Hfresh.
  { intros s n q [t Hs] Hn Hq. subst work.
    assert (n = "general") as ->.
    { destruct Hn as [?|?%list_elem_of_singleton]; done. }
    assert (Some q = Some ({[ "vim/.vimrc" := "~/.vimrc";
                              "git/.gitconfig" := "~/.gitconfig";
                              "zsh/.zshrc" := "~/.zshrc" ]} : Profile))
      as [= ->] by (rewrite <- Hq; reflexivity).
    entries_of Hs; injection Hs as -> _; reflexivity. }
  destruct (@GetProfiles_Ok range_sorted cfg_test (["general"] ++ ["work"]))
    as [r Hr].
  { intros n [->|Hn]%elem_of_cons _;
      [|apply list_elem_of_singleton in Hn; subst n];
      eexists; reflexivity. }
  exists r. split; [exact Hr|].
  exact (@GetProfiles_last_profile_complete range_sorted _ cfg_test
           ["general"] "work" work r ltac:(discriminate) eq_refl Hunique
           Hfresh Hr "git/.gitconfig-work" "~/.gitconfig" eq_refl).
Defined.

End merge_more.

(** * Further properties of the commands *)

Section commands.
Context {FS : Type} `{!OS FS} `{!MapRange}.
Import linker.

Lemma settled_no_issue dotfilesDir (e : string * string) (fs : FS) :
  settled fs dotfilesDir e ↔
  issue_of fs dotfilesDir e = None ∧
  IsNotExist (sys_stat fs (path_join dotfilesDir e.1)) = false.
Proof.
  unfold settled, issue_of. split.
  - intros (Hsrc & stat & -> & -> & ->). split; [|done].
    by rewrite decide_True.
  - intros [Hissue Hsrc]. split; [done|].
    destruct (sys_lstat fs (utils.ExpandPath e.2)) as [stat|err];
      [|by destruct err as [[]| | | |]].
    exists stat. split; [done|].
    destruct (is_symlink stat); [|done]. split; [done|].
    destruct (sys_readlink fs (utils.ExpandPath e.2)) as [linkTarget|];
      [|done].
    case_decide; [by subst|done].
Qed.

(** X8: [Link] and [Check] agree.  In a state where [Link] reports every
    entry as already correct, [Check] over the same entries finds no issue,
    returns no error and prints that all links are correct.  An entry is
    skipped by [Link] as already correct exactly when [Check] has no issue
    with it and its source exists. *)
Theorem Link_correct_Check_passes (dotfilesDir : string) (dryRun : bool)
    (entries : list (string * string)) (fs : FS) :
  (∀ e, settled fs dotfilesDir e ↔
        issue_of fs dotfilesDir e = None ∧
        IsNotExist (sys_stat fs (path_join dotfilesDir e.1)) = false) ∧
  (printed (events_of (link_loop dotfilesDir dryRun entries fs))
   = already_correct dotfilesDir <$> entries →
   value_of (check_loop dotfilesDir entries fs) = None ∧
   printed (events_of (check_loop dotfilesDir entries fs))
   = [(Stdout, AllLinksCorrect)]).
Proof.
  split; [intros e; apply settled_no_issue|].
  intros Hall%link_loop_all_correct.
  assert (omap (issue_of fs dotfilesDir) entries = []) as Hnone.
  { induction Hall as [|e entries He _ IH]; [done|]. simpl.
    apply settled_no_issue in He as [-> _]. exact IH. }
  destruct (check_loop_run dotfilesDir entries fs) as [Hv Hp].
  rewrite Hnone in Hv, Hp. by rewrite Hv, Hp.
Qed.

End commands.

Lemma Link_correct_Check_passes_witness :
  value_of (@linker.check_loop _ (sim_os cfg_vim) "/dot"
              [("vim/.vimrc", "~/.vimrc")] fs_linked) = None.
Proof.
  destruct (@Link_correct_Check_passes _ (sim_os cfg_vim) "/dot" false
              [("vim/.vimrc", "~/.vimrc")] fs_linked) as [_ Hpass].
  destruct Hpass as [Hvalue _]; [vm_compute; reflexivity|exact Hvalue].
Defined.

Section link_calls.
Context {FS : Type} `{!OS FS} `{!MapRange}.
Import linker.

Lemma link_entry_calls dotfilesDir dryRun source target fs :
  Forall (λ c, c ∈ link_calls dotfilesDir (source, target))
    (calls (events_of (link_entry dotfilesDir dryRun source target fs))).
Proof.
  unfold link_entry, handle_existing, create_link, utils.BackupFile,
    link_calls.
  run_cases; repeat constructor; in_list.
Qed.

Lemma for_range_unit_events (entries : list (string * string))
    (body : string → string → M FS unit) (P : Event FS → Prop) :
  (∀ e fs, e ∈ entries → Forall P (events_of (body e.1 e.2 fs))) →
  ∀ fs, Forall P (events_of (for_range entries (λ _ : unit, body) tt fs)).
Proof.
  induction entries as [|e entries IH]; intros Hbody fs; simpl.
  - apply Forall_nil_2.
  - rewrite run_bind. unfold events_of at 1; simpl.
    apply Forall_app_2.
    + apply Hbody. by apply elem_of_cons; left.
    + destruct (value_of (body e.1 e.2 fs)). apply IH.
      intros e' fs' He'. apply Hbody. by apply elem_of_cons; right.
Qed.

(** X9: every call of package os that [Link] issues is a call on the
    paths of an entry of the mapping: a query on its source, its target or
    the backup path of its target, the removal of the target or of that
    backup, the renaming of the target to the backup path, the creation of
    the directory of the target, or the creation of the link from the
    source at the target.  This bounds the arguments of the calls; what a
    call changes beyond its arguments, as [MkdirAll] does when it creates
    the directories above the one it is given, is the system's. *)
Theorem Link_calls_of_entries (dotfilesDir : string) (dryRun : bool)
    (entries : list (string * string)) (fs : FS) :
  Forall (λ ev, match ev with
                | EvCall _ c =>
                    ∃ e, e ∈ entries ∧ c ∈ link_calls dotfilesDir e
                | EvPrint _ _ => True
                end)
    (events_of (link_loop dotfilesDir dryRun entries fs)).
Proof.
  unfold link_loop. apply for_range_unit_events.
  intros [source target] fs' He; simpl.
  pose proof (link_entry_calls dotfilesDir dryRun source target fs') as Hc.
  unfold calls in Hc. rewrite Forall_forall in Hc. apply Forall_forall.
  intros [before c|w m] Hev; [|done].
  exists (source, target). split; [done|]. apply Hc.
  apply list_elem_of_omap. by exists (EvCall before c).
Qed.

Lemma link_entry_removes dotfilesDir dryRun source target fs :
  Forall (removes_wrong_link_only dotfilesDir [(source, target)])
    (events_of (link_entry dotfilesDir dryRun source target fs)).
Proof.
  unfold link_entry, handle_existing, create_link, utils.BackupFile.
  run_cases; repeat constructor; simpl; try done.
  all: exists (source, target); eexists _, _; simpl.
  all: split; [by apply list_elem_of_singleton|]; split; [done|].
  all: repeat (split; [eassumption|]).
  all: by apply String.eqb_neq.
Qed.

(** X10: [Link] calls [Remove] only on the target of an entry that is, at
    that moment, a symbolic link whose stored string differs from the
    expected source path: [Remove] is called neither on what [Lstat]
    reports as a file or directory nor on a link that is already correct.
    The statement is about [Remove] only; a file or directory at a target
    is moved aside by [BackupFile], with [RemoveAll] and [Rename]. *)
Theorem Link_removes_wrong_links_only (dotfilesDir : string) (dryRun : bool)
    (entries : list (string * string)) (fs : FS) :
  Forall (removes_wrong_link_only dotfilesDir entries)
    (events_of (link_loop dotfilesDir dryRun entries fs)).
Proof.
  unfold link_loop. apply for_range_unit_events.
  intros [source target] fs' He; simpl.
  eapply Forall_impl; [apply link_entry_removes|].
  intros [before [| | |name| | | |]|]; simpl; try done.
  intros (e & stat & linkTarget & ->%list_elem_of_singleton & Hrest).
  by exists (source, target), stat, linkTarget.
Qed.

(** X11: when [Link] leaves an entry (source missing, link already correct,
    or the link or file in its place could not be read, removed or backed
    up), it creates neither a directory nor a link for it. *)
Theorem Link_creates_nothing_when_left (dotfilesDir : string)
    (dryRun : bool) (source target : string) (fs : FS) :
  Exists entry_left
    (printed (events_of (link_entry dotfilesDir dryRun source target fs))) →
  Forall (λ c, ¬ creates c)
    (calls (events_of (link_entry dotfilesDir dryRun source target fs))).
Proof.
  unfold link_entry, handle_existing, create_link, utils.BackupFile.
  run_cases; intros Hleft; repeat constructor; simpl; try (by intros []).
  all: exfalso; revert Hleft; rewrite ?Exists_cons, Exists_nil;
    unfold entry_left; simpl; tauto.
Qed.

(** X12: the dry run of an entry is a preview of its run: from the same
    state, when no change of the filesystem fails in the run, the run
    prints the lines of the dry run, with "Created" where the dry run says
    "Would create". *)
Theorem Link_dry_run_previews (dotfilesDir source target : string)
    (fs : FS) :
  Forall (λ line, ¬ change_failed line)
    (printed (events_of (link_entry dotfilesDir false source target fs))) →
  printed (events_of (link_entry dotfilesDir false source target fs))
  = realised <$>
      printed (events_of (link_entry dotfilesDir true source target fs)).
Proof.
  unfold link_entry, handle_existing, create_link, utils.BackupFile.
  run_cases; intros Hok; try done.
  all: exfalso; revert Hok; rewrite ?Forall_cons, ?Forall_nil;
    unfold change_failed; simpl; tauto.
Qed.

End link_calls.

Lemma Link_creates_nothing_when_left_witness :
  Forall (λ c, ¬ creates c)
    (calls (events_of (@linker.link_entry _ (sim_os cfg_vim) "/dot" false
                         "vim/.vimrc" "~/.vimrc" fs_linked))).
Proof.
  apply (@Link_creates_nothing_when_left _ (sim_os cfg_vim)).
  assert (printed (events_of (@linker.link_entry _ (sim_os cfg_vim) "/dot"
                                false "vim/.vimrc" "~/.vimrc" fs_linked))
          = [(Stdout,
              SkippedAlreadyCorrect "/home/u/.vimrc" "/dot/vim/.vimrc")])
    as -> by (vm_compute; reflexivity).
  by constructor.
Defined.

Lemma Link_dry_run_previews_witness :
  printed (events_of (@linker.link_entry _ (sim_os cfg_vim) "/dot" false
                        "vim/.vimrc" "~/.vimrc" fs_real_file))
  = realised <$>
      printed (events_of (@linker.link_entry _ (sim_os cfg_vim) "/dot" true
                            "vim/.vimrc" "~/.vimrc" fs_real_file)).
Proof.
  apply (@Link_dry_run_previews _ (sim_os cfg_vim)).
  assert (printed (events_of (@linker.link_entry _ (sim_os cfg_vim) "/dot"
                                false "vim/.vimrc" "~/.vimrc" fs_real_file))
          = [(Stdout, BackedUp "/home/u/.vimrc");
             (Stdout, Created "/home/u/.vimrc" "/dot/vim/.vimrc")])
    as -> by (vm_compute; reflexivity).
  repeat constructor; by intros [].
Defined.

(** * Further properties of package utils *)

Section utils_more.
Context {FS : Type} `{!OS FS}.

(** X13: [BackupFile] touches the backup path and the path only: it asks
    for the backup, removes it where it exists, and renames the path to it.
    It returns no error only after a rename that succeeded, which is its
    last call.  When the backup in place cannot be removed it returns that
    error and renames nothing; when there is no backup it removes
    nothing. *)
Theorem BackupFile_calls (path : string) (fs : FS) :
  let backupPath := path +:+ ".bak" in
  let run := utils.BackupFile path fs in
  Forall (λ c, c ∈ [CStat backupPath; CRemoveAll backupPath;
                    CRename path backupPath])
    (calls (events_of run)) ∧
  (value_of run = None →
   ∃ fs1, last (events_of run) = Some (EvCall fs1 (CRename path backupPath)) ∧
          sys_rename fs1 path backupPath = (state_of run, None)) ∧
  (∀ info err,
     sys_stat fs backupPath = Ok info →
     (sys_remove_all fs backupPath).2 = Some err →
     value_of run
     = Some (Wrapped "failed to remove existing backup" backupPath err) ∧
     CRename path backupPath ∉ calls (events_of run)) ∧
  (∀ err, sys_stat fs backupPath = Err err →
          CRemoveAll backupPath ∉ calls (events_of run)).
Proof.
  intros backupPath run. subst run. unfold utils.BackupFile.
  fold backupPath. split; [|split; [|split]].
  - run_cases; repeat constructor; in_list.
  - run_cases; intros Hnone; try done; simpl in *; subst; by eexists.
  - intros info err Hstat Hrm. run_calls. rewrite Hstat.
    destruct (sys_remove_all fs backupPath) as [fs1 e]. simpl in Hrm.
    subst e. run_calls. split; [done|].
    intros [[=]|[[=]|[]%elem_of_nil]%elem_of_cons]%elem_of_cons.
  - intros err Hstat. run_calls. rewrite Hstat. run_cases;
      intros [[=]|[[=]|[]%elem_of_nil]%elem_of_cons]%elem_of_cons.
Qed.

End utils_more.

Lemma BackupFile_calls_witness :
  ∃ fs1,
    last (events_of (@utils.BackupFile _ (sim_os cfg_vim) "/home/u/.vimrc"
                       fs_real_file))
    = Some (EvCall fs1 (CRename "/home/u/.vimrc" "/home/u/.vimrc.bak")).
Proof.
  destruct (@BackupFile_calls _ (sim_os cfg_vim) "/home/u/.vimrc"
              fs_real_file) as (_ & Hdone & _).
  destruct Hdone as (fs1 & Hlast & _); [vm_compute; reflexivity|].
  by exists fs1.
Defined.

Section expand_more.
Context {FS : Type} `{!OS FS}.

Lemma substring_all (s : string) :
  String.substring 0 (String.length s) s = s.
Proof. induction s as [|c s IH]; simpl; [done|]. by rewrite IH. Qed.

(** X14: with the home directory known, [ExpandPath] turns the marker
    alone into the home directory and the marker followed by a separator
    into the home directory joined with the rest of the path, which may be
    empty.  A path that does not begin with the marker is returned as it
    is, and so is every path when the home directory is not known. *)
Theorem ExpandPath_cases :
  (∀ homeDir,
     sys_user_home_dir = Ok homeDir →
     utils.ExpandPath "~" = homeDir ∧
     ∀ rest, utils.ExpandPath ("~/" +:+ rest) = path_join homeDir rest) ∧
  (∀ path, HasPrefix path "~" = false → utils.ExpandPath path = path) ∧
  (∀ err path,
     sys_user_home_dir = Err err → utils.ExpandPath path = path).
Proof.
  split; [|split].
  - intros homeDir Hhome. unfold utils.ExpandPath. rewrite Hhome.
    split; [done|]. intros rest. simpl.
    assert (slice_from 2 ("~/" +:+ rest) = rest) as ->.
    { unfold slice_from. simpl. rewrite Nat.sub_0_r. apply substring_all. }
    by destruct rest.
  - intros path Hpre. unfold utils.ExpandPath. by rewrite Hpre.
  - intros err path Hhome. unfold utils.ExpandPath. rewrite Hhome.
    by destruct (negb (HasPrefix path "~")).
Qed.

End expand_more.

Lemma ExpandPath_cases_witness :
  @utils.ExpandPath _ (sim_os cfg_vim) ("~/" +:+ ".config/nvim/init.vim")
  = "/home/u/.config/nvim/init.vim".
Proof.
  destruct (@ExpandPath_cases _ (sim_os cfg_vim)) as (Hhome & _ & _).
  destruct (Hhome "/home/u") as [_ Hrest]; [reflexivity|].
  exact (Hrest ".config/nvim/init.vim").
Defined.

Section list_more.
Context {FS : Type} `{!OS FS} `{!MapRange}.
Import linker.

Lemma list_entry_run dotfilesDir st source target fs :
  let run := list_entry dotfilesDir st source target fs in
  state_of run = fs ∧ query_only (events_of run) ∧
  ∃ line,
    value_of run = {| linksFound := true; listed := listed st ++ [line] |} ∧
    (listed_as_linked dotfilesDir (source, target) line
     ↔ issue_of fs dotfilesDir (source, target) = None) ∧
    (line = ListCorrect (utils.ExpandPath target)
              (path_join dotfilesDir source)
     → settled fs dotfilesDir (source, target)).
Proof.
  unfold list_entry, issue_of, settled, listed_as_linked, is_symlink,
    query_only; simpl.
  run_calls.
  destruct (sys_lstat fs (utils.ExpandPath target)) as [stat|err] eqn:Hl;
    simpl.
  - destruct (N.land (Mode stat) ModeSymlink =? 0)%N eqn:Hmode; simpl.
    + repeat split; [by repeat constructor|].
      eexists; split; [done|]. split; [|done]. split; [by intros [|]|done].
    + run_calls.
      destruct (sys_readlink fs (utils.ExpandPath target))
        as [linkTarget|err] eqn:Hr; simpl.
      * destruct (String.eqb_spec linkTarget (path_join dotfilesDir source))
          as [->|Hne]; simpl.
        -- run_calls. rewrite decide_True by done.
           repeat split; [by repeat constructor|].
           eexists; split; [done|]. split.
           ++ split; [done|]. intros _.
              destruct (sys_stat fs (path_join dotfilesDir source));
                [by left|by right].
           ++ destruct (sys_stat fs (path_join dotfilesDir source))
                eqn:Hs; [|done].
              intros _. split; [done|]. exists stat.
              by rewrite Hmode.
        -- rewrite decide_False by done.
           repeat split; [by repeat constructor|].
           eexists; split; [done|]. split; [|done].
           split; [by intros [|]|done].
      * repeat split; [by repeat constructor|].
        eexists; split; [done|]. split; [|done].
        split; [by intros [|]|done].
  - repeat split; [by repeat constructor|].
    eexists; split; [done|]. split; [|done].
    split; [by intros [|]|by destruct err as [[]| | | |]].
Qed.

Lemma list_entries_run dotfilesDir entries st fs :
  let run := for_range entries (list_entry dotfilesDir) st fs in
  state_of run = fs ∧ query_only (events_of run) ∧
  ∃ lines,
    value_of run
    = {| linksFound := match entries with
                       | [] => linksFound st
                       | _ => true
                       end;
         listed := listed st ++ lines |} ∧
    Forall2 (λ e line,
               (listed_as_linked dotfilesDir e line
                ↔ issue_of fs dotfilesDir e = None) ∧
               (line = ListCorrect (utils.ExpandPath e.2)
                         (path_join dotfilesDir e.1)
                → settled fs dotfilesDir e))
      entries lines.
Proof.
  revert st. induction entries as [|[source target] entries IH];
    intros st; simpl.
  - repeat split; [apply Forall_nil_2|]. exists [].
    rewrite app_nil_r. by destruct st.
  - rewrite run_bind.
    destruct (list_entry_run dotfilesDir st source target fs)
      as (Hs & Hq & line & Hv & Hline).
    simpl in Hs, Hq, Hv. rewrite Hv, Hs.
    destruct (IH {| linksFound := true; listed := listed st ++ [line] |})
      as (Hs' & Hq' & lines & Hv' & Hlines).
    simpl in Hs', Hq', Hv'.
    unfold value_of at 1, state_of at 1, events_of at 1; simpl.
    split; [done|]. split; [by apply query_only_app|].
    exists (line :: lines). split; [|by constructor].
    rewrite Hv'. simpl. rewrite <- app_assoc. by destruct entries.
Qed.

(** X15: once the mapping is resolved, [List] returns no error, leaves
    the filesystem as it was and issues no call that can change it.  It
    writes the header with the requested names joined by a comma and a
    space, then one line per entry in the order of the enumeration, and
    the notice that no mapping was found exactly when there is no entry.
    The line of an entry shows it as linked, with or without the warning
    of a missing source, exactly when [Check] has no issue with the entry;
    a line without the warning means the entry needs nothing from
    [Link]. *)
Theorem List_agrees_with_Check (profiles : list string) (fs : FS)
    (dotfilesDir : string) (profileMap : Profile) :
  resolve fs profiles = Ok (dotfilesDir, profileMap) →
  let run := List profiles fs in
  let entries := map_range profileMap in
  state_of run = fs ∧ query_only (events_of run) ∧
  ∃ lines,
    value_of run
    = (ListHeader (Join profiles ", ") :: lines
       ++ match entries with [] => [ListNoMappings] | _ => [] end,
       None) ∧
    Forall2 (λ e line,
               (listed_as_linked dotfilesDir e line
                ↔ issue_of fs dotfilesDir e = None) ∧
               (line = ListCorrect (utils.ExpandPath e.2)
                         (path_join dotfilesDir e.1)
                → settled fs dotfilesDir e))
      entries lines.
Proof.
  intros Hres. unfold resolve in Hres. unfold List.
  destruct dotfiles.GetDotfilesDir as [d|]; [|done].
  run_step.
  destruct (config.ParseConfig fs d) as [cfg|]; [|done].
  destruct (config.GetProfiles cfg profiles) as [pm|]; [|done].
  injection Hres as -> ->. simpl.
  rewrite run_bind. unfold list_loop. rewrite run_bind.
  destruct (list_entries_run dotfilesDir (map_range profileMap)
              {| linksFound := false;
                 listed := [ListHeader (Join profiles ", ")] |} fs)
    as (Hs & Hq & lines & Hv & Hlines).
  simpl in Hs, Hq, Hv. rewrite Hv, Hs.
  unfold value_of, state_of, events_of, mret, M_ret; simpl.
  rewrite !app_nil_r. split; [done|]. split; [done|].
  exists lines. split; [|done].
  destruct (map_range profileMap); simpl; [|by rewrite app_nil_r].
  done.
Qed.

End list_more.

Lemma List_agrees_with_Check_witness :
  (value_of (@linker.List _ (sim_os cfg_vim) range_sorted ["general"]
               fs_linked)).2 = None.
Proof.
  destruct (@List_agrees_with_Check _ (sim_os cfg_vim) range_sorted
              ["general"] fs_linked "/dot" {[ "vim/.vimrc" := "~/.vimrc" ]})
    as (_ & _ & lines & Hvalue & _); [vm_compute; reflexivity|].
  exact (f_equal snd Hvalue).
Defined.

(** * Further properties of the profile flag *)

Lemma Split_cons (s : string) (sep : Ascii.ascii) :
  ∃ piece pieces, Split s sep = piece :: pieces.
Proof.
  induction s as [|c s (piece & pieces & IH)]; simpl; [by eexists _, _|].
  destruct (Ascii.eqb c sep); [by eexists _, _|].
  rewrite IH. by eexists _, _.
Qed.

Lemma Join_cons (x y : string) (elems : list string) (sep : string) :
  Join (x :: y :: elems) sep = x +:+ sep +:+ Join (y :: elems) sep.
Proof. done. Qed.

Lemma Join_Split (s : string) (sep : Ascii.ascii) :
  Join (Split s sep) (String sep EmptyString) = s.
Proof.
  induction s as [|c s IH]; [done|].
  destruct (Split_cons s sep) as (piece & pieces & Hs).
  cbn [Split]. rewrite Hs in IH |- *.
  destruct (Ascii.eqb_spec c sep) as [->|Hne].
  - by rewrite Join_cons, IH.
  - destruct pieces as [|piece' pieces].
    + cbn [Join] in IH |- *. by rewrite IH.
    + rewrite Join_cons in IH |- *. by rewrite <- IH.
Qed.

Lemma Split_pieces (s : string) (sep : Ascii.ascii) :
  Forall (λ piece, sep ∉ String.list_ascii_of_string piece) (Split s sep).
Proof.
  induction s as [|c s IH]; simpl.
  - apply Forall_singleton. apply not_elem_of_nil.
  - destruct (Ascii.eqb_spec c sep) as [->|Hne].
    + apply Forall_cons. split; [apply not_elem_of_nil|done].
    + destruct (Split_cons s sep) as (piece & pieces & Hs).
      rewrite Hs in IH |- *. apply Forall_cons in IH as [Hpiece Hpieces].
      apply Forall_cons. split; [|done]. simpl.
      intros [?|?]%elem_of_cons; [by subst|done].
Qed.

(** X16: [ParseProfiles] turns the empty flag into the default name alone.
    Any other flag is cut at every comma: the names returned are the
    pieces between the commas, each trimmed, in their order, so that
    there is one name more than there are commas, no piece holds a comma,
    and the pieces with the commas put back are the flag.  No piece is
    dropped: an empty piece gives the name that trimming gives the empty
    string. *)
Theorem ParseProfiles_pieces (TrimSpace : string → string)
    (profileStr : string) :
  let comma := Ascii.ascii_of_nat 44 in
  linker.ParseProfiles TrimSpace "" = ["general"] ∧
  (profileStr ≠ "" →
   ∃ pieces,
     linker.ParseProfiles TrimSpace profileStr = TrimSpace <$> pieces ∧
     Join pieces "," = profileStr ∧
     Forall (λ piece, comma ∉ String.list_ascii_of_string piece) pieces ∧
     length pieces
     = S (length (filter (λ c, c = comma)
                    (String.list_ascii_of_string profileStr)))).
Proof.
  intros comma. split; [done|]. intros Hne.
  exists (Split profileStr comma). unfold linker.ParseProfiles.
  destruct (String.eqb_spec profileStr "") as [|_]; [done|].
  split; [done|]. split; [apply Join_Split|]. split; [apply Split_pieces|].
  clear Hne. induction profileStr as [|c s IH]; simpl; [done|].
  rewrite filter_cons.
  destruct (Ascii.eqb_spec c comma) as [->|Hc].
  - rewrite decide_True by done. simpl. by rewrite IH.
  - rewrite decide_False by done.
    destruct (Split_cons s comma) as (piece & pieces & Hs).
    by rewrite Hs in IH |- *.
Qed.

Lemma ParseProfiles_pieces_witness :
  ∃ pieces,
    linker.ParseProfiles id "general,,work" = id <$> pieces ∧
    length pieces = 3.
Proof.
  destruct (ParseProfiles_pieces id "general,,work") as [_ Hpieces].
  destruct Hpieces as (pieces & Hparse & _ & _ & Hlen); [done|].
  exists pieces. split; [exact Hparse|exact Hlen].
Defined.

(** * Further properties of the configuration file *)

Section parse_more.
Context {FS : Type} `{!OS FS} `{!MapRange} `{!MapRangeOk _}.
Import config.

(** X17: [ParseConfig] returns a table exactly when the status query on
    the mappings file does not say that the file is absent, the decoder
    returns that table, and the table has the default profile; a status
    query that fails in another way does not stop it.  After it, the merge
    requested with no name returns the default profile of the file, and
    the merge of any request succeeds exactly when the file has every
    requested name. *)
Theorem ParseConfig_then_GetProfiles (fs : FS) (dotfilesDir : string)
    (c : Config) :
  let mappingsPath := path_join dotfilesDir ".mappings" in
  (ParseConfig fs dotfilesDir = Ok c ↔
   IsNotExist (sys_stat fs mappingsPath) = false ∧
   toml_decode_file fs mappingsPath = Ok c ∧
   is_Some (c !! "general")) ∧
  (ParseConfig fs dotfilesDir = Ok c →
   (∃ general, c !! "general" = Some general ∧
               GetProfiles c [] = Ok general) ∧
   ∀ names, (∃ r, GetProfiles c names = Ok r) ↔
            (∀ n, n ∈ names → is_Some (c !! n))).
Proof.
  intros mappingsPath.
  assert (ParseConfig fs dotfilesDir = Ok c ↔
          IsNotExist (sys_stat fs mappingsPath) = false ∧
          toml_decode_file fs mappingsPath = Ok c ∧
          is_Some (c !! "general")) as Hparse.
  { unfold ParseConfig. fold mappingsPath.
    destruct (IsNotExist (sys_stat fs mappingsPath)).
    { split; [done|by intros [? _]]. }
    destruct (toml_decode_file fs mappingsPath) as [c'|err].
    - destruct (c' !! "general") as [g|] eqn:Hg.
      + split.
        * intros [= ->]. by rewrite Hg.
        * by intros (_ & [= ->] & _).
      + split; [done|]. intros (_ & [= ->] & [g Hg']). by rewrite Hg in Hg'.
    - split; [done|]. by intros (_ & ? & _). }
  split; [done|]. intros (_ & _ & [general Hgeneral])%Hparse. split.
  - exists general. split; [done|].
    unfold GetProfiles; simpl. by rewrite seeded_result, Hgeneral.
  - intros names. split.
    + intros [r Hr] n Hn.
      destruct (decide (n = "general")) as [->|Hne]; [by eexists|].
      destruct (c !! n) as [p|] eqn:Hc; [by eexists|].
      destruct (GetProfiles c names) as [r'|e] eqn:Hget.
      * exfalso.
        assert (∃ e, GetProfiles c names = Err e) as [e He]; [|by rewrite Hget in He].
        apply list_elem_of_split in Hn as (before & after & ->).
        clear Hget Hr.
        assert (∀ l st, (∃ e, apply_profiles c (l ++ n :: after) st = Err e))
          as Hfail.
        { induction l as [|m l IHl]; intros st; simpl.
          - rewrite decide_False by done. rewrite Hc. by eexists.
          - case_decide; [apply IHl|].
            destruct (c !! m); [apply IHl|by eexists]. }
        unfold GetProfiles.
        rewrite decide_False
          by (rewrite length_app; simpl; lia).
        destruct (Hfail before (seeded c)) as [e ->]. by eexists.
      * done.
    + intros Hall. apply GetProfiles_Ok. intros n Hn _. by apply Hall.
Qed.

End parse_more.

Lemma ParseConfig_then_GetProfiles_witness :
  @config.GetProfiles range_sorted cfg_vim []
  = Ok {[ "vim/.vimrc" := "~/.vimrc" ]}.
Proof.
  destruct (@ParseConfig_then_GetProfiles _ (sim_os cfg_vim) range_sorted
              range_sorted_ok fs_sources "/dot" cfg_vim) as [_ Hafter].
  destruct Hafter as [(general & Hgeneral & Hmerge) _];
    [vm_compute; reflexivity|].
  assert (general = {[ "vim/.vimrc" := "~/.vimrc" ]}) as <-; [|exact Hmerge].
  assert (cfg_vim !! "general"
          = Some ({[ "vim/.vimrc" := "~/.vimrc" ]} : Profile)) as Hlookup
    by reflexivity.
  rewrite Hlookup in Hgeneral. by injection Hgeneral.
Defined.

(** * What the commands report *)

Section reports.
Context {FS : Type} `{!OS FS} `{!MapRange}.
Import linker.

Lemma for_range_unit_printed (entries : list (string * string))
    (body : string → string → M FS unit)
    (P : string * string → list (Stream * Msg) → Prop) :
  (∀ e fs, P e (printed (events_of (body e.1 e.2 fs)))) →
  ∀ fs, ∃ chunks,
    printed (events_of (for_range entries (λ _ : unit, body) tt fs))
    = concat chunks ∧
    Forall2 P entries chunks.
Proof.
  intros Hbody. induction entries as [|e entries IH]; intros fs; simpl.
  - by exists [].
  - rewrite run_bind. unfold events_of at 1; simpl.
    destruct (body e.1 e.2 fs) as [[[] fs'] evs] eqn:Hrun.
    destruct (IH fs') as (chunks & Hprinted & Hchunks).
    exists (printed evs :: chunks). split.
    + rewrite printed_app. simpl. f_equal.
      by unfold value_of, state_of; simpl.
    + constructor; [|done].
      specialize (Hbody e fs). by rewrite Hrun in Hbody.
Qed.

Lemma resolved_events (profiles : list string) (dryRun : bool) (fs : FS)
    (dotfilesDir : string) (profileMap : Profile) :
  resolve fs profiles = Ok (dotfilesDir, profileMap) →
  let entries := map_range profileMap in
  events_of (Check profiles fs)
  = events_of (check_loop dotfilesDir entries fs) ∧
  events_of (Clean profiles fs) = events_of (clean_loop entries fs) ∧
  events_of (Link profiles dryRun fs)
  = events_of (link_loop dotfilesDir dryRun entries fs) ∧
  events_of (List profiles fs)
  = events_of (for_range entries (list_entry dotfilesDir)
                 {| linksFound := false;
                    listed := [ListHeader (Join profiles ", ")] |} fs).
Proof.
  unfold resolve, Check, Clean, Link, List, list_loop.
  destruct dotfiles.GetDotfilesDir as [d|]; [|done].
  run_step.
  destruct (config.ParseConfig fs d) as [cfg|]; [|done].
  destruct (config.GetProfiles cfg profiles) as [pm|]; [|done].
  intros [= -> ->]. simpl. run_step.
  by rewrite !app_nil_r.
Qed.

(** X18: once the mapping is resolved, [Clean] prints exactly one line
    per entry, in the order of the enumeration, and the line is about the
    target of that entry: skipped as not found, skipped as no symbolic
    link, removed, or the error of the status query or of the removal.
    Its calls are status queries and removals of targets of the mapping:
    it reads no source and touches no other path. *)
Theorem Clean_reports_each_entry (profiles : list string) (fs : FS)
    (dotfilesDir : string) (profileMap : Profile) :
  resolve fs profiles = Ok (dotfilesDir, profileMap) →
  let run := Clean profiles fs in
  let entries := map_range profileMap in
  Forall2 clean_line entries (printed (events_of run)) ∧
  Forall (λ c, ∃ e, e ∈ entries ∧
                    (c = CLstat (utils.ExpandPath e.2) ∨
                     c = CRemove (utils.ExpandPath e.2)))
    (calls (events_of run)).
Proof.
  intros Hres run entries. subst run.
  destruct (resolved_events profiles false fs dotfilesDir profileMap Hres)
    as (_ & -> & _ & _).
  fold entries. unfold clean_loop. split.
  - destruct (for_range_unit_printed entries (λ _ target, clean_entry target)
                (λ e chunk, ∃ line, chunk = [line] ∧ clean_line e line))
      with (fs := fs) as (chunks & -> & Hchunks).
    { intros [source target] fs'; simpl.
      unfold clean_entry, clean_line. run_cases; by eexists. }
    clear -Hchunks. induction Hchunks as [|e chunk ? ? (line & -> & ?) _ IH];
      simpl; [constructor|by constructor].
  - unfold calls.
    pose proof (for_range_unit_events entries (λ _ target, clean_entry target)
                  (λ ev, match ev with
                         | EvCall _ c =>
                             ∃ e, e ∈ entries ∧
                                  (c = CLstat (utils.ExpandPath e.2) ∨
                                   c = CRemove (utils.ExpandPath e.2))
                         | EvPrint _ _ => True
                         end)) as Hev.
    apply Forall_forall. intros c (ev & Hin & Hc)%list_elem_of_omap.
    eapply Forall_forall in Hev; [|clear Hin Hc|exact Hin].
    + by destruct ev as [before c'|]; simplify_eq/=.
    + intros [source target] fs' He; simpl.
      unfold clean_entry. run_cases; repeat constructor.
      all: exists (source, target); split; [done|]; first [by left|by right].
Qed.

Lemma for_range_calls {S} (entries : list (string * string))
    (body : S → string → string → M FS S)
    (Q : string * string → Call → Prop) :
  (∀ s e fs, Forall (Q e) (calls (events_of (body s e.1 e.2 fs)))) →
  ∀ s fs, Forall (λ c, ∃ e, e ∈ entries ∧ Q e c)
            (calls (events_of (for_range entries body s fs))).
Proof.
  intros Hbody. induction entries as [|e entries IH]; intros s fs; simpl.
  - apply Forall_nil_2.
  - rewrite run_bind. unfold events_of at 1; simpl. rewrite calls_app.
    apply Forall_app_2.
    + eapply Forall_impl; [apply Hbody|]. intros c Hc.
      exists e. split; [by apply elem_of_cons; left|done].
    + eapply Forall_impl; [apply IH|]. intros c (e' & He' & Hc).
      exists e'. split; [by apply elem_of_cons; right|done].
Qed.

(** X19: once the mapping is resolved, [Link] reports on every entry, in
    the order of the enumeration.  The lines of an entry end with its
    outcome (source missing, already correct, would create, created, or
    the error that stopped it), and the outcome is preceded by at most one
    line, which says that the link or file in place of the target was
    overridden or backed up. *)
Theorem Link_reports_each_entry (profiles : list string) (dryRun : bool)
    (fs : FS) (dotfilesDir : string) (profileMap : Profile) :
  resolve fs profiles = Ok (dotfilesDir, profileMap) →
  ∃ chunks,
    printed (events_of (Link profiles dryRun fs)) = concat chunks ∧
    Forall2 (λ e chunk,
               ∃ outcome,
                 link_outcome dotfilesDir e outcome ∧
                 (chunk = [outcome] ∨
                  ∃ notice, link_notice e notice ∧
                            chunk = [notice; outcome]))
      (map_range profileMap) chunks.
Proof.
  intros Hres.
  destruct (resolved_events profiles dryRun fs dotfilesDir profileMap Hres)
    as (_ & _ & -> & _).
  unfold link_loop. apply for_range_unit_printed.
  intros [source target] fs'; simpl.
  unfold link_entry, handle_existing, create_link, utils.BackupFile,
    link_outcome, link_notice.
  run_cases; simpl.
  all: try (simpl in *; discriminate).
  all: first
    [ by eexists; (split; [|by left])
    | by eexists; (split; [|right; eexists; (split; [|reflexivity])]) ].
Qed.

(** X20: once the mapping is resolved, [Check] and [List] look at the
    entries of the mapping only.  [Check] asks for the status and the
    content of links at targets and never looks at a source, so a link
    whose source is gone passes; [List] asks for the same and for the
    status of sources. *)
Theorem Check_List_calls_of_entries (profiles : list string) (fs : FS)
    (dotfilesDir : string) (profileMap : Profile) :
  resolve fs profiles = Ok (dotfilesDir, profileMap) →
  let entries := map_range profileMap in
  Forall (λ c, ∃ e, e ∈ entries ∧
                    c ∈ [CLstat (utils.ExpandPath e.2);
                         CReadlink (utils.ExpandPath e.2)])
    (calls (events_of (Check profiles fs))) ∧
  Forall (λ c, ∃ e, e ∈ entries ∧
                    c ∈ [CLstat (utils.ExpandPath e.2);
                         CReadlink (utils.ExpandPath e.2);
                         CStat (path_join dotfilesDir e.1)])
    (calls (events_of (List profiles fs))).
Proof.
  intros Hres entries.
  destruct (resolved_events profiles false fs dotfilesDir profileMap Hres)
    as (-> & _ & _ & ->).
  fold entries. split.
  - unfold check_loop. rewrite run_bind. unfold events_of at 1; simpl.
    rewrite calls_app. apply Forall_app_2.
    + apply (for_range_calls entries (check_entry dotfilesDir)
               (λ e c, c ∈ [CLstat (utils.ExpandPath e.2);
                            CReadlink (utils.ExpandPath e.2)])).
      intros issues [source target] fs'; simpl.
      unfold check_entry. run_cases; repeat constructor.
    + case_decide.
      * run_step. apply Forall_nil_2.
      * rewrite run_bind. unfold events_of at 1; simpl. rewrite calls_app.
        destruct (print_issues_run
                    (value_of (for_range entries (check_entry dotfilesDir)
                                 [] fs))
                    (state_of (for_range entries (check_entry dotfilesDir)
                                 [] fs))) as (_ & -> & _).
        apply Forall_nil_2.
  - apply (for_range_calls entries (list_entry dotfilesDir)
             (λ e c, c ∈ [CLstat (utils.ExpandPath e.2);
                          CReadlink (utils.ExpandPath e.2);
                          CStat (path_join dotfilesDir e.1)])).
    intros st [source target] fs'; simpl.
    unfold list_entry. run_cases; repeat constructor.
Qed.

End reports.

Lemma Clean_reports_each_entry_witness :
  Forall2 (@clean_line _ (sim_os cfg_vim)) [("vim/.vimrc", "~/.vimrc")]
    (printed (events_of (@linker.Clean _ (sim_os cfg_vim) range_sorted
                           ["general"] fs_linked))).
Proof.
  destruct (@Clean_reports_each_entry _ (sim_os cfg_vim) range_sorted
              ["general"] fs_linked "/dot" {[ "vim/.vimrc" := "~/.vimrc" ]})
    as [Hlines _]; [vm_compute; reflexivity|].
  exact Hlines.
Defined.

Lemma Link_reports_each_entry_witness :
  ∃ chunks,
    printed (events_of (@linker.Link _ (sim_os cfg_vim) range_sorted
                          ["general"] false fs_real_file))
    = concat chunks ∧
    length chunks = 1.
Proof.
  destruct (@Link_reports_each_entry _ (sim_os cfg_vim) range_sorted
              ["general"] false fs_real_file "/dot"
              {[ "vim/.vimrc" := "~/.vimrc" ]})
    as (chunks & Hprinted & Hchunks); [vm_compute; reflexivity|].
  exists chunks. split; [exact Hprinted|].
  symmetry. exact (Forall2_length _ _ _ Hchunks).
Defined.

Lemma Check_List_calls_of_entries_witness :
  Forall (λ c, ∃ e, e ∈ [("vim/.vimrc", "~/.vimrc")] ∧
                    c ∈ [CLstat (@utils.ExpandPath _ (sim_os cfg_vim) e.2);
                         CReadlink (@utils.ExpandPath _ (sim_os cfg_vim) e.2)])
    (calls (events_of (@linker.Check _ (sim_os cfg_vim) range_sorted
                         ["general"] fs_linked))).
Proof.
  destruct (@Check_List_calls_of_entries _ (sim_os cfg_vim) range_sorted
              ["general"] fs_linked "/dot" {[ "vim/.vimrc" := "~/.vimrc" ]})
    as [Hcheck _]; [vm_compute; reflexivity|].
  exact Hcheck.
Defined.
